(** * Multiparty (threshold) key generation and decryption:
      lbcrypto::MultipartyBase<Element>  (pke/lib/schemebase/base-multiparty.cpp)

    The C++ class is a template over the ring-element type [Element]; the
    embedding below is generic over the same interface, given as a type
    class.  Exceptions and undefined behaviour are explicit outcomes, the
    pseudo-random generator is threaded as state. *)

From Stdlib Require Import ZArith String List Lia Znumtheory.
From stdpp Require Import base decidable option list gmap sorting.

Open Scope Z_scope.

(** ** Outcomes of a C++ call *)

(** [Format::EVALUATION], [Format::COEFFICIENT]. *)
Inductive Format : Type := EVALUATION | COEFFICIENT.

(** Secret-key distribution selector of the RLWE parameters. *)
Inductive MODE : Type := RLWE | OPTIMIZED | SPARSE.

(** Exceptions that cross this layer.  [math_error] is the class thrown by
    [PALISADE_THROW(math_error, what)]; [ParameterMismatch] is the error kind
    of the ring arithmetic (incompatible ring parameters). *)
Inductive Exception : Type :=
  | math_error (what : string)
  | ParameterMismatch.

(** Behaviours the C++ standard leaves undefined, reached by unguarded
    accesses of the source, and by the iterations of a parallel loop that
    write one shared container with no synchronisation. *)
Inductive Undef : Type :=
  | vector_out_of_range
  | end_iterator_dereference
  | division_by_zero
  | float_to_integer_out_of_range
  | data_race.

(** The OpenMP runtime the library runs on: [omp_team] is the number of
    threads that execute a parallel region whose [if] clause holds.  A build
    without OpenMP ignores the pragmas, which is a team of one. *)
Class OpenMP : Type := { omp_team : nat }.

Inductive outcome (A : Type) : Type :=
  | Ok (a : A)
  | Throw (e : Exception)
  | Undefined (u : Undef).
Arguments Ok {A} a.
Arguments Throw {A} e.
Arguments Undefined {A} u.

#[global] Instance Format_eq_dec : EqDecision Format.
Proof. solve_decision. Defined.
#[global] Instance MODE_eq_dec : EqDecision MODE.
Proof. solve_decision. Defined.
#[global] Instance Exception_eq_dec : EqDecision Exception.
Proof. solve_decision. Defined.

#[global] Instance outcome_ret : MRet outcome := @Ok.
#[global] Instance outcome_bind : MBind outcome := λ A B f m,
  match m with
  | Ok a => f a
  | Throw e => Throw e
  | Undefined u => Undefined u
  end.

(** [v[i]] on a [std::vector]: no bounds check in the source. *)
Definition at_index {A} (v : list A) (i : nat) : outcome A :=
  match v !! i with
  | Some x => Ok x
  | None => Undefined vector_out_of_range
  end.

(** [m->find(k)->second] on a [std::map]: the iterator is dereferenced
    without being compared with [end()]. *)
Definition find_second {V} (m : gmap Z V) (k : Z) : outcome V :=
  match m !! k with
  | Some v => Ok v
  | None => Undefined end_iterator_dereference
  end.

(** [for (x : l) acc = f(acc, x)] with early exit on a failure. *)
Fixpoint foldl_outcome {A B} (f : A → B → outcome A) (acc : A) (l : list B)
  : outcome A :=
  match l with
  | [] => Ok acc
  | x :: l' => acc' ← f acc x; foldl_outcome f acc' l'
  end.

(** [for (i ...) out.push_back(f(l[i]))] with early exit on a failure. *)
Fixpoint mapM_outcome {A B} (f : A → outcome B) (l : list A)
  : outcome (list B) :=
  match l with
  | [] => Ok []
  | x :: l' => y ← f x; ys ← mapM_outcome f l'; Ok (y :: ys)
  end.

(** [usint] is a 32-bit unsigned integer: arithmetic wraps. *)
Definition usint (z : Z) : Z := z mod 2 ^ 32.

(** Iteration of a [std::map<usint, V>] from [begin()] to [end()] visits the
    entries by ascending key. *)
Definition key_le {V} (x y : Z * V) : Prop := x.1 ≤ y.1.
#[global] Instance key_le_dec {V} (x y : Z * V) : Decision (key_le x y).
Proof. unfold key_le. apply _. Defined.
Definition ascending {V} (m : gmap Z V) : list (Z * V) :=
  merge_sort key_le (map_to_list m).

(** ** The interface of the template parameter [Element] and of the
       lattice layer it comes from

    None of these declarations is part of the file under verification; they
    are the operations and types it uses, taken as parameters. *)
Class Lattice : Type := {
  (** [ParmType]: element parameters (ring dimension, moduli). *)
  ParmType : Type;
  ParmType_eq_dec :: EqDecision ParmType;
  GetCyclotomicOrder : ParmType → Z;
  Element : Type;
  NativePoly : Type;
  (** type of a standard deviation, and the constant [MP_SD] *)
  StdDev : Type;
  MP_SD : StdDev;
  (** state of the pseudo-random generator behind the samplers *)
  Rng : Type;
  GetParams : Element → ParmType;
  GetFormat : Element → Format;
  GetRingDimension : Element → Z;
  (** [Element(params, format, true)]: the zero element *)
  zero : ParmType → Format → Element;
  (** [Element(dgg, params, format)] *)
  Element_dgg : StdDev → ParmType → Format → Rng → Element * Rng;
  (** [Element(dug, params, format)] *)
  Element_dug : ParmType → Format → Rng → Element * Rng;
  (** [Element(tug, params, format)] and [Element(tug, params, format, h)] *)
  Element_tug : ParmType → Format → option Z → Rng → Element * Rng;
  (** arithmetic of the ring on operands of identical parameters *)
  add : Element → Element → Element;
  sub : Element → Element → Element;
  mul : Element → Element → Element;
  (** [ns * e]: product with an integer scalar *)
  smul : Z → Element → Element;
  SwitchFormat : Element → Element;
  SetFormat : Format → Element → Element;
  AutomorphismTransform : Element → Z → list Z → Element;
  ToNativePoly : Element → NativePoly;
  GetLength : NativePoly → Z;
  (** [NativeInteger(k).ModInverse(m).ConvertToInt()] *)
  ModInverse : Z → Z → outcome Z;
  (** [PrecomputeAutoMap(N, index, &map)] *)
  PrecomputeAutoMap : Z → Z → list Z
}.

Section Model.
Context `{L : Lattice}.

(** A discrete Gaussian generator object is determined by its standard
    deviation: [DggType dgg(MP_SD)]. *)
Record DggType : Type := { dgg_std : StdDev }.

(** Modelled from the spec: the operators [+], [+=], [-] and [*] of the ring
    element type, whose implementation is not among the sources.  The spec's
    error kind ParameterMismatch is "incompatible ring parameters between
    inputs", not recoverable at this layer and surfaced to the caller; on
    identical parameters the operator is the ring operation of the
    interface. *)
Definition Plus (x y : Element) : outcome Element :=
  if decide (GetParams x = GetParams y) then Ok (add x y)
  else Throw ParameterMismatch.
Definition Minus (x y : Element) : outcome Element :=
  if decide (GetParams x = GetParams y) then Ok (sub x y)
  else Throw ParameterMismatch.
Definition Times (x y : Element) : outcome Element :=
  if decide (GetParams x = GetParams y) then Ok (mul x y)
  else Throw ParameterMismatch.

(** Computations that draw from the samplers: the generator state goes in and
    comes out, an exception or undefined behaviour ends the computation. *)
Definition M (A : Type) : Type := Rng → outcome (A * Rng).

#[global] Instance M_ret : MRet M := λ A a r, Ok (a, r).
#[global] Instance M_bind : MBind M := λ A B f m r,
  match m r with
  | Ok (a, r') => f a r'
  | Throw e => Throw e
  | Undefined u => Undefined u
  end.

Definition lift {A} (o : outcome A) : M A := λ r,
  match o with
  | Ok a => Ok (a, r)
  | Throw e => Throw e
  | Undefined u => Undefined u
  end.
Definition draw {A} (f : Rng → A * Rng) : M A := λ r, Ok (f r).
Definition throw {A} (e : Exception) : M A := λ _, Throw e.

Fixpoint foldl_M {A B} (f : A → B → M A) (acc : A) (l : list B) : M A :=
  match l with
  | [] => mret acc
  | x :: l' => acc' ← f acc x; foldl_M f acc' l'
  end.

(** ** Crypto objects *)

Record EncodingParams : Type := { GetBatchSize : Z }.

Record CryptoParametersRLWE : Type := {
  GetElementParams : ParmType;
  GetNoiseScale : Z;
  GetDiscreteGaussianGenerator : DggType;
  GetMode : MODE;
  GetEncodingParams : EncodingParams
}.

Record CryptoContext : Type := {
  GetCryptoParameters : CryptoParametersRLWE;
  getSchemeId : string
}.

Record PrivateKey : Type := {
  sk_context : CryptoContext;
  GetPrivateElement : Element
}.

Record PublicKey : Type := {
  pk_context : CryptoContext;
  GetPublicElements : list Element
}.

Record EvalKey : Type := {
  ek_context : CryptoContext;
  GetAVector : list Element;
  GetBVector : list Element
}.

Record Ciphertext : Type := {
  ct_context : CryptoContext;
  GetElements : list Element
}.

Record KeyPair : Type := {
  publicKey : PublicKey;
  secretKey : PrivateKey
}.

(** [DecryptResult(len)] *)
Record DecryptResult : Type := { messageLength : Z }.

(** The scheme object of a context: [cc->GetScheme()->KeySwitchGen(...)]. *)
Class Scheme : Type := {
  KeySwitchGen : CryptoContext → PrivateKey → PrivateKey → EvalKey → M EvalKey
}.
Context `{Sch : Scheme}.
Context `{Omp : OpenMP}.

(** ** MultipartyKeyGen, overload over a vector of private keys

    [for (auto &pk : privateKeyVec) s += pk->GetPrivateElement();] *)
Definition sum_private_elements (s : Element) (privateKeyVec : list PrivateKey)
  : outcome Element :=
  foldl_outcome (λ s pk, Plus s (GetPrivateElement pk)) s privateKeyVec.

(** [s] starts as the zero element in evaluation format; [a] is constructed
    before [e]; the public key receives [b] at index 0 and [a] at index 1.
    [makeSparse] is not used. *)
Definition MultipartyKeyGen_shares (cc : CryptoContext)
    (privateKeyVec : list PrivateKey) (makeSparse : bool) : M KeyPair :=
  let cryptoParams := GetCryptoParameters cc in
  let elementParams := GetElementParams cryptoParams in
  let ns := GetNoiseScale cryptoParams in
  let dgg := GetDiscreteGaussianGenerator cryptoParams in
  s ← lift (sum_private_elements (zero elementParams EVALUATION) privateKeyVec);
  a ← draw (Element_dug elementParams EVALUATION);
  e ← draw (Element_dgg (dgg_std dgg) elementParams EVALUATION);
  b ← lift (a_s ← Times a s; Minus (smul ns e) a_s);
  mret {| publicKey := {| pk_context := cc; GetPublicElements := [b; a] |};
          secretKey := {| sk_context := cc; GetPrivateElement := s |} |}.

(** ** MultipartyKeyGen, overload over a predecessor public key

    The [switch] over the mode; [MODE] has no other value, so the [default]
    branch is not reached. *)
Definition draw_secret (cryptoParams : CryptoParametersRLWE) : M Element :=
  let elementParams := GetElementParams cryptoParams in
  let dgg := GetDiscreteGaussianGenerator cryptoParams in
  match GetMode cryptoParams with
  | RLWE => draw (Element_dgg (dgg_std dgg) elementParams EVALUATION)
  | OPTIMIZED => draw (Element_tug elementParams EVALUATION None)
  | SPARSE => draw (Element_tug elementParams EVALUATION (Some 64))
  end.

(** [pk[0]] is read only when [fresh] is false. *)
Definition MultipartyKeyGen_pubkey (cc : CryptoContext) (publicKey0 : PublicKey)
    (makeSparse fresh : bool) : M KeyPair :=
  let cryptoParams := GetCryptoParameters cc in
  let elementParams := GetElementParams cryptoParams in
  let ns := GetNoiseScale cryptoParams in
  let dgg := GetDiscreteGaussianGenerator cryptoParams in
  s ← draw_secret cryptoParams;
  let pk := GetPublicElements publicKey0 in
  a ← lift (at_index pk 1);
  e ← draw (Element_dgg (dgg_std dgg) elementParams EVALUATION);
  b ← lift (a_s ← Times a s;
            d ← Minus (smul ns e) a_s;
            if fresh then Ok d else (b0 ← at_index pk 0; Plus d b0));
  mret {| publicKey := {| pk_context := cc; GetPublicElements := [b; a] |};
          secretKey := {| sk_context := cc; GetPrivateElement := s |} |}.

(** ** Key switching and automorphism keys *)
Definition MultiKeySwitchGen (oldPrivateKey newPrivateKey : PrivateKey)
    (evalKey : EvalKey) : M EvalKey :=
  KeySwitchGen (sk_context oldPrivateKey) oldPrivateKey newPrivateKey evalKey.

(** One iteration of the loop over [indexList]: the inverse of the index
    modulo [2 * N], the permuted secret, then the key switch applied to the
    entry of the prior map, stored under the index.  The arguments of
    [MultiKeySwitchGen] are evaluated before the call, the lookup among
    them. *)
Definition automorphism_key_step (privateKey : PrivateKey)
    (evalKeyMap : gmap Z EvalKey) (result : gmap Z EvalKey) (k : Z)
  : M (gmap Z EvalKey) :=
  let s := GetPrivateElement privateKey in
  let N := usint (GetRingDimension s) in
  let cc := sk_context privateKey in
  inv ← lift (ModInverse k (usint (2 * N)));
  let index := usint inv in
  let map := PrecomputeAutoMap N index in
  let sPermuted := AutomorphismTransform s index map in
  let privateKeyPermuted :=
    {| sk_context := cc; GetPrivateElement := sPermuted |} in
  ek ← lift (find_second evalKeyMap k);
  r ← MultiKeySwitchGen privateKeyPermuted privateKey ek;
  mret (<[k := r]> result).

Definition size_exceeds : Exception :=
  math_error "size exceeds the ring dimension".

(** [#pragma omp parallel for if (indexList.size() >= 4)]: the loop is run by
    a team of [omp_team] threads when the list has four indices or more, and
    by the calling thread alone otherwise. *)
Definition runs_in_parallel (indexList : list Z) : bool :=
  bool_decide (4 ≤ length indexList)%nat && bool_decide (2 ≤ omp_team)%nat.

(** [N] and [N - 1] are [usint]; the size check comes before the loop.

    Every iteration ends in the assignment to [result] at [indexList[i]],
    an insertion into the one [std::map] all the threads share, with no
    critical section or lock around it.  Run by two threads or more, the iterations race on
    the map (and an exception or an undefined lookup inside the region is no
    better defined), so the standard gives the call no meaning: it may
    return a map that lacks keys, or not return.  Run by one thread, the
    iterations follow the list in order. *)
Definition MultiEvalAutomorphismKeyGen (privateKey : PrivateKey)
    (evalKeyMap : gmap Z EvalKey) (indexList : list Z) : M (gmap Z EvalKey) :=
  let s := GetPrivateElement privateKey in
  let N := usint (GetRingDimension s) in
  if decide (Z.of_nat (length indexList) > usint (N - 1))
  then throw size_exceeds
  else if runs_in_parallel indexList
       then λ _, Undefined data_race
       else foldl_M (automorphism_key_step privateKey evalKeyMap) ∅ indexList.

(** ** MultiEvalSumKeyGen

    [ceil(log2(B))] is evaluated in double precision on a 32-bit unsigned
    [B].  For [1 <= B < 2^32] the result is taken to be the integer ceiling
    of the binary logarithm: [log2] of a power of two is the exact integer,
    and for any other [B] the logarithm is at least [log2(1 + 2^-32)] away
    from an integer, far more than the rounding error of a double of that
    size.  For [B = 0] the logarithm is minus infinity, whose conversion to
    [size_t] is undefined. *)
Definition ceil_log2 (B : Z) : outcome nat :=
  if decide (B ≤ 0) then Undefined float_to_integer_out_of_range
  else Ok (Z.to_nat (Z.log2_up B)).

(** [for (j < max) { indices[j] = g; g = (g * g) % M; }] on [usint]. *)
Fixpoint sum_indices (M0 : Z) (max : nat) (g : Z) : outcome (list Z) :=
  match max with
  | O => Ok []
  | S max' =>
      if decide (M0 = 0) then Undefined division_by_zero
      else rest ← sum_indices M0 max' (usint (g * g) mod M0); Ok (g :: rest)
  end.

Definition MultiEvalSumKeyGen (privateKey : PrivateKey)
    (evalKeyMap : gmap Z EvalKey) : M (gmap Z EvalKey) :=
  let cryptoParams := GetCryptoParameters (sk_context privateKey) in
  max ← lift (ceil_log2 (GetBatchSize (GetEncodingParams cryptoParams)));
  let M0 := GetCyclotomicOrder (GetElementParams cryptoParams) in
  indices ← lift (sum_indices M0 max 5);
  MultiEvalAutomorphismKeyGen privateKey evalKeyMap indices.

(** ** Partial decryption and fusion

    [cv[0] + s * cv[1] + ns * e], then [b.SwitchFormat()]; the result is a
    clone of the input ciphertext with [b] as its only element. *)
Definition MultipartyDecryptLead (ciphertext : Ciphertext)
    (privateKey : PrivateKey) : M Ciphertext :=
  let cryptoParams := GetCryptoParameters (sk_context privateKey) in
  let elementParams := GetElementParams cryptoParams in
  let ns := GetNoiseScale cryptoParams in
  let cv := GetElements ciphertext in
  let s := GetPrivateElement privateKey in
  e ← draw (Element_dgg MP_SD elementParams EVALUATION);
  b ← lift (c0 ← at_index cv 0;
            c1 ← at_index cv 1;
            s_c1 ← Times s c1;
            t ← Plus c0 s_c1;
            Plus t (smul ns e));
  let b := SwitchFormat b in
  mret {| ct_context := ct_context ciphertext; GetElements := [b] |}.

(** [s * cv[1] + es * e]; no format switch. *)
Definition MultipartyDecryptMain (ciphertext : Ciphertext)
    (privateKey : PrivateKey) : M Ciphertext :=
  let cryptoParams := GetCryptoParameters (sk_context privateKey) in
  let elementParams := GetElementParams cryptoParams in
  let es := GetNoiseScale cryptoParams in
  let cv := GetElements ciphertext in
  let s := GetPrivateElement privateKey in
  e ← draw (Element_dgg MP_SD elementParams EVALUATION);
  b ← lift (c1 ← at_index cv 1;
            s_c1 ← Times s c1;
            Plus s_c1 (smul es e));
  mret {| ct_context := ct_context ciphertext; GetElements := [b] |}.

(** [ciphertextVec[0]] and every [cvi[0]] are read without a check.  The
    source returns the [DecryptResult] and writes the polynomial through the
    [plaintext] pointer; both are returned here. *)
Definition MultipartyDecryptFusion (ciphertextVec : list Ciphertext)
  : outcome (NativePoly * DecryptResult) :=
  ct0 ← at_index ciphertextVec 0;
  b0 ← at_index (GetElements ct0) 0;
  b ← foldl_outcome
         (λ b cti, x ← at_index (GetElements cti) 0; Plus b x)
         b0 (tail ciphertextVec);
  let b := SetFormat COEFFICIENT b in
  let plaintext := ToNativePoly b in
  Ok (plaintext, {| messageLength := GetLength plaintext |}).

(** ** Sums of keys

    The sum takes its context and its [a] from the first key. *)
Definition MultiAddPubKeys (publicKey1 publicKey2 : PublicKey)
  : outcome PublicKey :=
  let cc := pk_context publicKey1 in
  a ← at_index (GetPublicElements publicKey1) 1;
  b1 ← at_index (GetPublicElements publicKey1) 0;
  b2 ← at_index (GetPublicElements publicKey2) 0;
  b ← Plus b1 b2;
  Ok {| pk_context := cc; GetPublicElements := [b; a] |}.

(** [for (i < a.size()) b.push_back(b1[i] + b2[i])]: the bound is the length
    of the first key's A-vector, which the sum reuses. *)
Definition MultiAddEvalKeys (evalKey1 evalKey2 : EvalKey) : outcome EvalKey :=
  let cc := ek_context evalKey1 in
  let a := GetAVector evalKey1 in
  let b1 := GetBVector evalKey1 in
  let b2 := GetBVector evalKey2 in
  b ← mapM_outcome
         (λ i, x ← at_index b1 i; y ← at_index b2 i; Plus x y)
         (seq 0 (length a));
  Ok {| ek_context := cc; GetAVector := a; GetBVector := b |}.

(** One iteration of the loop over [evalKeyMap1]: the entry is summed and
    stored when [evalKeyMap2->find] is not [end()], skipped otherwise. *)
Definition add_keys_step (evalKeyMap2 : gmap Z EvalKey)
    (acc : gmap Z EvalKey) (it : Z * EvalKey) : outcome (gmap Z EvalKey) :=
  match evalKeyMap2 !! it.1 with
  | Some ek2 => r ← MultiAddEvalKeys it.2 ek2; Ok (<[it.1 := r]> acc)
  | None => Ok acc
  end.

Definition MultiAddEvalAutomorphismKeys (evalKeyMap1 evalKeyMap2 : gmap Z EvalKey)
  : outcome (gmap Z EvalKey) :=
  foldl_outcome (add_keys_step evalKeyMap2) ∅ (ascending evalKeyMap1).

Definition MultiAddEvalSumKeys (evalKeyMap1 evalKeyMap2 : gmap Z EvalKey)
  : outcome (gmap Z EvalKey) :=
  foldl_outcome (add_keys_step evalKeyMap2) ∅ (ascending evalKeyMap1).

End Model.

(** ** Specification-side notions *)

Section Specification.
Context `{L : Lattice}.

(** Two ring elements can be combined: same parameters, same representation. *)
Definition compatible (x y : Element) : Prop :=
  GetParams x = GetParams y ∧ GetFormat x = GetFormat y.

(** The sum [s_1 + ... + s_N] of a non-empty sequence of ring elements. *)
Fixpoint Sigma (s1 : Element) (rest : list Element) : Element :=
  match rest with
  | [] => s1
  | s2 :: rest' => add s1 (Sigma s2 rest')
  end.

(** The sequence [5, 5^2 mod M, 5^4 mod M, ...] of length [n]: repeated
    squaring modulo [M], starting at the generator 5. *)
Definition square_index (M0 : Z) (j : nat) : Z :=
  if decide (j = 0%nat) then 5 else 5 ^ (2 ^ Z.of_nat j) mod M0.
Definition squarings (M0 : Z) (n : nat) : list Z :=
  square_index M0 <$> seq 0 n.

Definition flip_format (f : Format) : Format :=
  match f with
  | EVALUATION => COEFFICIENT
  | COEFFICIENT => EVALUATION
  end.

(** What the data model says of ring elements: the samplers and the zero
    constructor produce an element of the requested parameters and
    representation, the operations keep the parameters and the
    representation of compatible operands, and addition is the addition of a
    commutative ring. *)
Class LatticeLaws : Prop := {
  GetParams_zero p f : GetParams (zero p f) = p;
  GetFormat_zero p f : GetFormat (zero p f) = f;
  GetParams_dgg sd p f r : GetParams (Element_dgg sd p f r).1 = p;
  GetFormat_dgg sd p f r : GetFormat (Element_dgg sd p f r).1 = f;
  GetParams_dug p f r : GetParams (Element_dug p f r).1 = p;
  GetFormat_dug p f r : GetFormat (Element_dug p f r).1 = f;
  GetParams_tug p f h r : GetParams (Element_tug p f h r).1 = p;
  GetFormat_tug p f h r : GetFormat (Element_tug p f h r).1 = f;
  GetParams_add x y :
    GetParams x = GetParams y → GetParams (add x y) = GetParams x;
  GetParams_sub x y :
    GetParams x = GetParams y → GetParams (sub x y) = GetParams x;
  GetParams_mul x y :
    GetParams x = GetParams y → GetParams (mul x y) = GetParams x;
  GetParams_smul n x : GetParams (smul n x) = GetParams x;
  GetFormat_add x y : compatible x y → GetFormat (add x y) = GetFormat x;
  GetFormat_sub x y : compatible x y → GetFormat (sub x y) = GetFormat x;
  GetFormat_mul x y : compatible x y → GetFormat (mul x y) = GetFormat x;
  GetFormat_smul n x : GetFormat (smul n x) = GetFormat x;
  GetFormat_SwitchFormat x :
    GetFormat (SwitchFormat x) = flip_format (GetFormat x);
  add_comm x y : compatible x y → add x y = add y x;
  add_assoc x y z :
    compatible x y → compatible y z → add (add x y) z = add x (add y z);
  add_zero_l x : add (zero (GetParams x) (GetFormat x)) x = x
}.

End Specification.

(** What the callers' contract says of the collaborators of the
    automorphism-key loop. *)
Section Collaborators.
Context `{L : Lattice} `{Sch : !Scheme}.

(** [k] has an inverse modulo [2N]. *)
Definition invertible (N k : Z) : Prop :=
  ∃ i, ModInverse k (usint (2 * N)) = Ok i.

(** The key-switch generation of the scheme returns a key. *)
Definition KeySwitchGen_returns : Prop :=
  ∀ cc old new ek r, ∃ ek' r', KeySwitchGen cc old new ek r = Ok (ek', r').


End Collaborators.

(** ** The remaining functions of the file *)

Section RemainingFunctions.
Context `{L : Lattice} `{Sch : !Scheme} `{Omp : OpenMP}.

(** [FindAutomorphismIndex2n(i, M)] and [FindAutomorphismIndex2nComplex(i, M)]:
    the two rules that turn a signed slot shift into an automorphism index.
    They are declared outside the file under verification and taken as
    parameters. *)
Class AutomorphismIndexRules : Type := {
  FindAutomorphismIndex2n : Z → Z → outcome Z;
  FindAutomorphismIndex2nComplex : Z → Z → outcome Z
}.
Context `{Rules : AutomorphismIndexRules}.

(** [for (x : l) out.push_back(f(x))] in the sampling monad. *)
Fixpoint mapM_M {A B} (f : A → M B) (l : list A) : M (list B) :=
  match l with
  | [] => mret []
  | x :: l' => y ← f x; ys ← mapM_M f l'; mret (y :: ys)
  end.

(** The rule is chosen by [cc->getSchemeId() == "CKKSRNS"]; the result is
    stored in a [uint32_t]. *)
Definition automorphism_index (cc : CryptoContext) (M0 : Z) (i : Z)
  : outcome Z :=
  k ← (if decide (getSchemeId cc = "CKKSRNS"%string)
       then FindAutomorphismIndex2nComplex i M0
       else FindAutomorphismIndex2n i M0);
  Ok (usint k).

Definition MultiEvalAtIndexKeyGen (privateKey : PrivateKey)
    (evalKeyMap : gmap Z EvalKey) (indexList : list Z) : M (gmap Z EvalKey) :=
  let cc := sk_context privateKey in
  let M0 := GetCyclotomicOrder
              (GetElementParams (GetCryptoParameters (sk_context privateKey))) in
  autoIndices ← lift (mapM_outcome (automorphism_index cc M0) indexList);
  MultiEvalAutomorphismKeyGen privateKey evalKeyMap autoIndices.

(** [for (i < a1.size()) { a.push_back(a1[i] + a2[i]);
    b.push_back(b1[i] + b2[i]); }] *)
Definition add_mult_digit (a1 a2 b1 b2 : list Element) (i : nat)
  : outcome (Element * Element) :=
  x1 ← at_index a1 i;
  x2 ← at_index a2 i;
  a ← Plus x1 x2;
  y1 ← at_index b1 i;
  y2 ← at_index b2 i;
  b ← Plus y1 y2;
  Ok (a, b).

Definition MultiAddEvalMultKeys (evalKey1 evalKey2 : EvalKey)
  : outcome EvalKey :=
  let cc := ek_context evalKey1 in
  let a1 := GetAVector evalKey1 in
  let a2 := GetAVector evalKey2 in
  let b1 := GetBVector evalKey1 in
  let b2 := GetBVector evalKey2 in
  ab ← mapM_outcome (add_mult_digit a1 a2 b1 b2) (seq 0 (length a1));
  Ok {| ek_context := cc; GetAVector := ab.*1; GetBVector := ab.*2 |}.

(** One digit of MultiMultEvalKey: [e1] and [e2] are constructed first, then
    [a0[i] * s + ns * e1] and [b0[i] * s + ns * e2] are pushed. *)
Definition mult_digit (cryptoParams : CryptoParametersRLWE)
    (a0 b0 : list Element) (s : Element) (i : nat) : M (Element * Element) :=
  let dgg := GetDiscreteGaussianGenerator cryptoParams in
  let elementParams := GetElementParams cryptoParams in
  let ns := GetNoiseScale cryptoParams in
  e1 ← draw (Element_dgg (dgg_std dgg) elementParams EVALUATION);
  e2 ← draw (Element_dgg (dgg_std dgg) elementParams EVALUATION);
  lift (x ← at_index a0 i;
        xs ← Times x s;
        a ← Plus xs (smul ns e1);
        y ← at_index b0 i;
        ys ← Times y s;
        b ← Plus ys (smul ns e2);
        Ok (a, b)).

(** The context and the parameters are those of the evaluation key. *)
Definition MultiMultEvalKey (privateKey : PrivateKey) (evalKey : EvalKey)
  : M EvalKey :=
  let cc := ek_context evalKey in
  let cryptoParams := GetCryptoParameters cc in
  let a0 := GetAVector evalKey in
  let b0 := GetBVector evalKey in
  let s := GetPrivateElement privateKey in
  ab ← mapM_M (mult_digit cryptoParams a0 b0 s) (seq 0 (length a0));
  mret {| ek_context := cc; GetAVector := ab.*1; GetBVector := ab.*2 |}.

(** *** Notions used to state their properties *)

(** An element of parameters [p] in representation [f]. *)
Definition shaped (p : ParmType) (f : Format) (x : Element) : Prop :=
  GetParams x = p ∧ GetFormat x = f.

(** Element 0 of a partial decryption. *)
Definition first_element (ct : Ciphertext) : option Element :=
  GetElements ct !! 0%nat.

(** [n] successive pairs of draws from the discrete Gaussian: the pairs and
    the generator state after them. *)
Fixpoint noise_pairs (sd : StdDev) (p : ParmType) (n : nat) (r : Rng)
  : list (Element * Element) * Rng :=
  match n with
  | O => ([], r)
  | S n' =>
      let d1 := Element_dgg sd p EVALUATION r in
      let d2 := Element_dgg sd p EVALUATION d1.2 in
      let rest := noise_pairs sd p n' d2.2 in
      ((d1.1, d2.1) :: rest.1, rest.2)
  end.

(** Further ring laws of the element type: the format switch keeps the
    parameters, and multiplication and the scalar product distribute over
    the addition of compatible elements. *)
Class RingLaws : Prop := {
  GetParams_SwitchFormat x : GetParams (SwitchFormat x) = GetParams x;
  mul_add_distr_l x y z :
    compatible x y → compatible y z →
    add (mul x z) (mul y z) = mul (add x y) z;
  mul_add_distr_r x y z :
    compatible x y → compatible y z →
    add (mul x y) (mul x z) = mul x (add y z);
  smul_add_distr n x y :
    compatible x y → add (smul n x) (smul n y) = smul n (add x y)
}.

End RemainingFunctions.

(** ** A small instance of the interface

    The ring is Z itself, an element carries its parameters (ring dimension
    and a modulus tag) and its representation; the generator state is a
    counter.  It serves to run the functions on concrete inputs. *)
Module Small.

Record elem : Type := { e_params : Z * Z; e_format : Format; e_value : Z }.

Definition mk (p : Z * Z) (f : Format) (v : Z) : elem :=
  {| e_params := p; e_format := f; e_value := v |}.

Definition lift2 (op : Z → Z → Z) (x y : elem) : elem :=
  mk (e_params x) (e_format x) (op (e_value x) (e_value y)).

Definition sample (spread : Z) (p : Z * Z) (f : Format) (r : Z) : elem * Z :=
  (mk p f ((r * 7 + 3) mod spread - spread / 2), r + 1).

Definition flip (x : elem) : elem :=
  mk (e_params x)
     (match e_format x with
      | EVALUATION => COEFFICIENT
      | COEFFICIENT => EVALUATION
      end)
     (e_value x).

Definition inverse (k m : Z) : outcome Z :=
  match List.find (λ x, (k * x) mod m =? 1 mod m) (Z.of_nat <$> seq 0 (Z.to_nat m)) with
  | Some x => Ok x
  | None => Throw (math_error "no inverse")
  end.

#[global] Instance lattice : Lattice := {|
  ParmType := Z * Z;
  GetCyclotomicOrder p := 2 * p.1;
  Element := elem;
  NativePoly := list Z;
  StdDev := Z;
  MP_SD := 1048576;
  Rng := Z;
  GetParams := e_params;
  GetFormat := e_format;
  GetRingDimension x := (e_params x).1;
  zero p f := mk p f 0;
  Element_dgg sd := sample (2 * sd + 1);
  Element_dug p := sample p.2 p;
  Element_tug p f h := sample 3 p f;
  add := lift2 Z.add;
  sub := lift2 Z.sub;
  mul := lift2 Z.mul;
  smul n x := mk (e_params x) (e_format x) (n * e_value x);
  SwitchFormat := flip;
  SetFormat f x := mk (e_params x) f (e_value x);
  AutomorphismTransform x index map :=
    mk (e_params x) (e_format x) (index * e_value x);
  ToNativePoly x := [e_value x];
  GetLength p := Z.of_nat (length p);
  ModInverse := inverse;
  PrecomputeAutoMap N index := Z.of_nat <$> seq 0 (Z.to_nat N)
|}.

(** A key-switching generator for the small instance: the new key's
    vectors are those of the input key shifted by the difference of the two
    secrets. *)
#[global] Instance scheme : Scheme := {|
  KeySwitchGen cc old new ek r :=
    let d := sub (GetPrivateElement old) (GetPrivateElement new) in
    Ok ({| ek_context := cc;
           GetAVector := GetAVector ek;
           GetBVector := (λ b, add b d) <$> GetBVector ek |}, r + 1)
|}.

Definition params : Z * Z := (8, 97).
Definition other_params : Z * Z := (8, 193).

Definition context : CryptoContext := {|
  GetCryptoParameters := {|
    GetElementParams := params;
    GetNoiseScale := 1;
    GetDiscreteGaussianGenerator := {| dgg_std := 3 |};
    GetMode := OPTIMIZED;
    GetEncodingParams := {| GetBatchSize := 8 |} |};
  getSchemeId := "BGVRNS"
|}.

Definition share (v : Z) : PrivateKey :=
  {| sk_context := context; GetPrivateElement := mk params EVALUATION v |}.

Definition foreign_share (v : Z) : PrivateKey :=
  {| sk_context := context;
     GetPrivateElement := mk other_params EVALUATION v |}.

Definition ciphertext (c0 c1 : Z) : Ciphertext :=
  {| ct_context := context;
     GetElements := [mk params EVALUATION c0; mk params EVALUATION c1] |}.

Definition pubkey (b a : Z) : PublicKey :=
  {| pk_context := context;
     GetPublicElements := [mk params EVALUATION b; mk params EVALUATION a] |}.

Definition evalkey (a b : list Z) : EvalKey :=
  {| ek_context := context;
     GetAVector := mk params EVALUATION <$> a;
     GetBVector := mk params EVALUATION <$> b |}.

Definition partial (f : Format) (v : Z) : Ciphertext :=
  {| ct_context := context; GetElements := [mk params f v] |}.

(** Two automorphism key maps over the index sets {1,3,5,7} and {3,5,9}. *)
Definition map1 : gmap Z EvalKey :=
  list_to_map [(1, evalkey [1] [10]); (3, evalkey [1] [30]);
               (5, evalkey [1] [50]); (7, evalkey [1] [70])].
Definition map2 : gmap Z EvalKey :=
  list_to_map [(3, evalkey [1] [300]); (5, evalkey [1] [500]);
               (9, evalkey [1] [900])].
Definition map_sum : gmap Z EvalKey :=
  list_to_map [(3, evalkey [1] [330]); (5, evalkey [1] [550])].

(** The odd residues modulo 16 other than 1: seven indices for the ring
    dimension 8. *)
Definition seven_indices : list Z := [3; 5; 7; 9; 11; 13; 15].

(** The first four of them. *)
Definition four_indices : list Z := [3; 5; 7; 9].

(** A runtime that gives a parallel region a team of four threads, and the
    library built without OpenMP. *)
#[global] Instance four_threads : OpenMP := {| omp_team := 4 |}.
Definition one_thread : OpenMP := {| omp_team := 1 |}.

(** The summation-key indices for batch size 8 and cyclotomic order 16. *)
Definition squarings_16 : list Z := squarings 16 3.

(** A prior map with one evaluation key per listed index. *)
Definition prior (indices : list Z) : gmap Z EvalKey :=
  list_to_map ((λ k, (k, evalkey [1] [k])) <$> indices).

(** Index rules for the small instance: powers of 5, respectively of 3,
    modulo the cyclotomic order. *)
#[global] Instance rules : AutomorphismIndexRules := {|
  FindAutomorphismIndex2n i M0 := Ok (3 ^ Z.abs i mod M0);
  FindAutomorphismIndex2nComplex i M0 := Ok (5 ^ Z.abs i mod M0)
|}.

Definition ckks_context : CryptoContext := {|
  GetCryptoParameters := GetCryptoParameters context;
  getSchemeId := "CKKSRNS"
|}.

Definition ckks_share (v : Z) : PrivateKey :=
  {| sk_context := ckks_context; GetPrivateElement := mk params EVALUATION v |}.

(** A context with a wider Gaussian and noise scale 2, and keys over it. *)
Definition noisy_context : CryptoContext := {|
  GetCryptoParameters := {|
    GetElementParams := params;
    GetNoiseScale := 2;
    GetDiscreteGaussianGenerator := {| dgg_std := 4 |};
    GetMode := RLWE;
    GetEncodingParams := {| GetBatchSize := 8 |} |};
  getSchemeId := "BFVRNS"
|}.

Definition noisy_share (v : Z) : PrivateKey :=
  {| sk_context := noisy_context;
     GetPrivateElement := mk params EVALUATION v |}.

Definition noisy_evalkey (a b : list Z) : EvalKey :=
  {| ek_context := noisy_context;
     GetAVector := mk params EVALUATION <$> a;
     GetBVector := mk params EVALUATION <$> b |}.

(** A secret key under a context with the given batch size, over a ring of
    the given dimension. *)
Definition sized_share (batch N : Z) : PrivateKey :=
  {| sk_context := {|
       GetCryptoParameters := {|
         GetElementParams := (N, 97);
         GetNoiseScale := 1;
         GetDiscreteGaussianGenerator := {| dgg_std := 4 |};
         GetMode := RLWE;
         GetEncodingParams := {| GetBatchSize := batch |} |};
       getSchemeId := "BGVRNS" |};
     GetPrivateElement := mk (N, 97) EVALUATION 3 |}.

End Small.

(** * Properties *)

Section Properties.
Context `{L : Lattice} `{Sch : !Scheme} `{Omp : OpenMP}.

(** ** The outcome and state monads compute *)

Lemma lift_Ok {A} (a : A) (r : Rng) : lift (Ok a) r = Ok (a, r).
Proof. reflexivity. Qed.

Lemma bind_M_Ok {A B} (m : M A) (f : A → M B) r a r' :
  m r = Ok (a, r') → (m ≫= f) r = f a r'.
Proof. intros H. unfold mbind, M_bind. by rewrite H. Qed.

Lemma bind_M_draw {A B} (g : Rng → A * Rng) (f : A → M B) r :
  (draw g ≫= f) r = f (g r).1 (g r).2.
Proof. unfold mbind, M_bind, draw. by destruct (g r). Qed.

Lemma bind_M_lift_Ok {A B} (o : outcome A) (f : A → M B) r a :
  o = Ok a → (lift o ≫= f) r = f a r.
Proof. intros ->. reflexivity. Qed.

Lemma bind_M_Throw {A B} (m : M A) (f : A → M B) r e :
  m r = Throw e → (m ≫= f) r = Throw e.
Proof. intros H. unfold mbind, M_bind. by rewrite H. Qed.

Lemma bind_M_Undefined {A B} (m : M A) (f : A → M B) r u :
  m r = Undefined u → (m ≫= f) r = Undefined u.
Proof. intros H. unfold mbind, M_bind. by rewrite H. Qed.

Lemma bind_Ok {A B} (a : A) (f : A → outcome B) : (Ok a ≫= f) = f a.
Proof. reflexivity. Qed.

Lemma foldl_outcome_cons {A B} (f : A → B → outcome A) acc x l :
  foldl_outcome f acc (x :: l) = f acc x ≫= λ acc', foldl_outcome f acc' l.
Proof. reflexivity. Qed.

Lemma at_index_Some {A} (v : list A) i x : v !! i = Some x → at_index v i = Ok x.
Proof. intros H. unfold at_index. by rewrite H. Qed.

Lemma Plus_same x y : GetParams x = GetParams y → Plus x y = Ok (add x y).
Proof. intros H. unfold Plus. by rewrite decide_True. Qed.

Lemma Plus_mismatch x y :
  GetParams x ≠ GetParams y → Plus x y = Throw ParameterMismatch.
Proof. intros H. unfold Plus. by rewrite decide_False. Qed.

Lemma Minus_same x y : GetParams x = GetParams y → Minus x y = Ok (sub x y).
Proof. intros H. unfold Minus. by rewrite decide_True. Qed.

Lemma Times_same x y : GetParams x = GetParams y → Times x y = Ok (mul x y).
Proof. intros H. unfold Times. by rewrite decide_True. Qed.

(** ** Summing the shares *)

Section Sums.
Context `{!LatticeLaws}.

Lemma compatible_add x y : compatible x y → compatible (add x y) y.
Proof.
  intros [Hp Hf]. split.
  - by rewrite GetParams_add.
  - by rewrite GetFormat_add.
Qed.

Lemma Sigma_shape p f s1 rest :
  Forall (λ x, GetParams x = p ∧ GetFormat x = f) (s1 :: rest) →
  GetParams (Sigma s1 rest) = p ∧ GetFormat (Sigma s1 rest) = f.
Proof.
  revert s1. induction rest as [|s2 rest IH]; intros s1 Hall.
  - by inversion Hall.
  - inversion Hall as [|? ? [Hp Hf] Hrest]; subst.
    destruct (IH s2 Hrest) as [Hp' Hf']. simpl. split.
    + rewrite GetParams_add; congruence.
    + rewrite GetFormat_add; [done|]. split; congruence.
Qed.

(** The loop [s += s_i] adds the shares from the left. *)
Lemma sum_private_elements_fold acc (l : list PrivateKey) :
  Forall (λ sk, compatible acc (GetPrivateElement sk)) l →
  sum_private_elements acc l
  = Ok (fold_left add (GetPrivateElement <$> l) acc).
Proof.
  unfold sum_private_elements.
  revert acc. induction l as [|sk l IH]; intros acc Hall; [done|].
  inversion Hall as [|? ? Hsk Hl]; subst. simpl.
  rewrite Plus_same by apply Hsk. simpl. apply IH.
  eapply Forall_impl; [exact Hl|]. intros sk' [Hp Hf].
  destruct Hsk as [Hp0 Hf0]. split.
  - rewrite GetParams_add; congruence.
  - rewrite GetFormat_add; [congruence|]. by split.
Qed.

(** Re-association of the left-nested sum of the loop. *)
Lemma fold_left_add_Sigma p f acc s1 rest :
  GetParams acc = p → GetFormat acc = f →
  Forall (λ x, GetParams x = p ∧ GetFormat x = f) (s1 :: rest) →
  fold_left add (s1 :: rest) acc = add acc (Sigma s1 rest).
Proof.
  revert acc s1. induction rest as [|s2 rest IH]; intros acc s1 Hp Hf Hall.
  - done.
  - inversion Hall as [|? ? [Hp1 Hf1] Hrest]; subst.
    change (fold_left add (s1 :: s2 :: rest) acc)
      with (fold_left add (s2 :: rest) (add acc s1)).
    rewrite (IH (add acc s1) s2); [| | |exact Hrest].
    + destruct (Sigma_shape _ _ _ _ Hrest) as [Hp' Hf'].
      simpl. apply add_assoc; split; congruence.
    + rewrite GetParams_add; congruence.
    + rewrite GetFormat_add; [done|]. split; congruence.
Qed.

(** A share whose parameters differ from the accumulator's stops the loop. *)
Lemma sum_private_elements_mismatch acc (l : list PrivateKey) :
  Exists (λ sk, GetParams (GetPrivateElement sk) ≠ GetParams acc) l →
  sum_private_elements acc l = Throw ParameterMismatch.
Proof.
  unfold sum_private_elements.
  revert acc. induction l as [|sk l IH]; intros acc Hex.
  - inversion Hex.
  - simpl. destruct (decide (GetParams acc = GetParams (GetPrivateElement sk)))
      as [Heq|Hne].
    + rewrite Plus_same by done. simpl. apply IH.
      rewrite GetParams_add by done.
      inversion Hex as [? ? Hhd|? ? Htl]; subst; [congruence|done].
    + by rewrite Plus_mismatch.
Qed.

End Sums.

(** ** C1: joint key from the shares *)

(** C1. For a non-empty sequence of private-key shares over the parameters of
    the context, in evaluation format, MultipartyKeyGen over the share vector
    returns a key pair: the secret element is the sum of the shares' private
    elements, the public key is [(ns*e - a*sum, a)], with [a] drawn first
    from the uniform sampler and [e] next from the discrete Gaussian of the
    parameters, both in evaluation format. *)
Theorem AggregateKeyGen_joint_key `{!LatticeLaws} (cc : CryptoContext)
    (sk1 : PrivateKey) (rest : list PrivateKey) (makeSparse : bool) (rng : Rng) :
  Forall (λ sk, GetParams (GetPrivateElement sk)
                  = GetElementParams (GetCryptoParameters cc)
                ∧ GetFormat (GetPrivateElement sk) = EVALUATION) (sk1 :: rest) →
  let cp := GetCryptoParameters cc in
  let ep := GetElementParams cp in
  let a := Element_dug ep EVALUATION rng in
  let e := Element_dgg (dgg_std (GetDiscreteGaussianGenerator cp)) ep
             EVALUATION a.2 in
  let s := Sigma (GetPrivateElement sk1) (GetPrivateElement <$> rest) in
  MultipartyKeyGen_shares cc (sk1 :: rest) makeSparse rng
  = Ok ({| publicKey :=
             {| pk_context := cc;
                GetPublicElements :=
                  [sub (smul (GetNoiseScale cp) e.1) (mul a.1 s); a.1] |};
           secretKey := {| sk_context := cc; GetPrivateElement := s |} |},
        e.2)
  ∧ GetFormat a.1 = EVALUATION ∧ GetFormat e.1 = EVALUATION.
Proof.
  intros Hall cp ep a e s.
  assert (Hall' : Forall (λ x, GetParams x = ep ∧ GetFormat x = EVALUATION)
                    (GetPrivateElement sk1 :: (GetPrivateElement <$> rest))).
  { change (Forall (λ x, GetParams x = ep ∧ GetFormat x = EVALUATION)
              (GetPrivateElement <$> sk1 :: rest)).
    apply Forall_fmap. eapply Forall_impl; [exact Hall|]. by intros sk [??]. }
  destruct (Sigma_shape _ _ _ _ Hall') as [Hsp Hsf]. fold s in Hsp, Hsf.
  assert (Hsum : sum_private_elements (zero ep EVALUATION) (sk1 :: rest) = Ok s).
  { rewrite sum_private_elements_fold.
    - change (GetPrivateElement <$> sk1 :: rest)
        with (GetPrivateElement sk1 :: (GetPrivateElement <$> rest)).
      rewrite (fold_left_add_Sigma ep EVALUATION);
        [|apply GetParams_zero|apply GetFormat_zero|exact Hall'].
      f_equal. fold s. rewrite <- Hsp at 1. rewrite <- Hsf at 1.
      apply add_zero_l.
    - eapply Forall_impl; [exact Hall|]. intros sk [Hp Hf]. split.
      + by rewrite GetParams_zero.
      + by rewrite GetFormat_zero. }
  split; [|split; [apply GetFormat_dug|apply GetFormat_dgg]].
  unfold MultipartyKeyGen_shares. fold cp ep.
  rewrite (bind_M_lift_Ok _ _ _ _ Hsum), !bind_M_draw. fold a. fold e.
  assert (Ha : GetParams a.1 = GetParams s)
    by (subst a; rewrite GetParams_dug; congruence).
  erewrite bind_M_lift_Ok; [reflexivity|].
  rewrite (Times_same _ _ Ha). simpl. apply Minus_same.
  rewrite GetParams_smul, GetParams_mul by exact Ha.
  subst a e. by rewrite GetParams_dgg, GetParams_dug.
Qed.

(** ** C7: shares over different parameters *)

(** C7. When two of the input shares have differing ring parameters,
    MultipartyKeyGen over the share vector returns no key pair: the
    ParameterMismatch error of the ring addition in the summing loop is
    surfaced. *)
Theorem AggregateKeyGen_parameter_mismatch `{!LatticeLaws} (cc : CryptoContext)
    (privateKeyVec : list PrivateKey) (makeSparse : bool) (rng : Rng)
    (ski skj : PrivateKey) :
  ski ∈ privateKeyVec → skj ∈ privateKeyVec →
  GetParams (GetPrivateElement ski) ≠ GetParams (GetPrivateElement skj) →
  MultipartyKeyGen_shares cc privateKeyVec makeSparse rng
  = Throw ParameterMismatch.
Proof.
  intros Hi Hj Hne. unfold MultipartyKeyGen_shares.
  apply bind_M_Throw.
  rewrite sum_private_elements_mismatch; [done|].
  rewrite GetParams_zero. apply Exists_exists.
  destruct (decide (GetParams (GetPrivateElement ski)
                    = GetElementParams (GetCryptoParameters cc))) as [Heq|Hd].
  - exists skj. split; [done|]. congruence.
  - by exists ski.
Qed.

(** ** C2: extending a public key *)

(** C2. For a predecessor public key [(b_prev, a_prev)] over the parameters
    of the context, MultipartyKeyGen over the public key draws the secret [s]
    from the sampler the mode selects (RLWE: the discrete Gaussian,
    OPTIMIZED: the ternary sampler, SPARSE: the ternary sampler with Hamming
    weight 64), then [e] from the discrete Gaussian, and returns the public
    key [(ns*e - a_prev*s, a_prev)] when [fresh] is true and
    [(ns*e - a_prev*s + b_prev, a_prev)] when it is false. *)
Theorem ExtendKeyGen_public_key `{!LatticeLaws} (cc : CryptoContext)
    (pk0 : PublicKey) (b_prev a_prev : Element) (more : list Element)
    (makeSparse fresh : bool) (rng : Rng) :
  GetPublicElements pk0 = b_prev :: a_prev :: more →
  GetParams a_prev = GetElementParams (GetCryptoParameters cc) →
  (fresh = false →
   GetParams b_prev = GetElementParams (GetCryptoParameters cc)) →
  let cp := GetCryptoParameters cc in
  let ep := GetElementParams cp in
  let sd := dgg_std (GetDiscreteGaussianGenerator cp) in
  let s := match GetMode cp with
           | RLWE => Element_dgg sd ep EVALUATION rng
           | OPTIMIZED => Element_tug ep EVALUATION None rng
           | SPARSE => Element_tug ep EVALUATION (Some 64) rng
           end in
  let e := Element_dgg sd ep EVALUATION s.2 in
  let d := sub (smul (GetNoiseScale cp) e.1) (mul a_prev s.1) in
  MultipartyKeyGen_pubkey cc pk0 makeSparse fresh rng
  = Ok ({| publicKey :=
             {| pk_context := cc;
                GetPublicElements :=
                  [if fresh then d else add d b_prev; a_prev] |};
           secretKey := {| sk_context := cc; GetPrivateElement := s.1 |} |},
        e.2)
  ∧ GetFormat s.1 = EVALUATION ∧ GetFormat e.1 = EVALUATION.
Proof.
  intros Hpk Ha Hb cp ep sd s e d.
  change (GetParams a_prev = ep) in Ha.
  change (fresh = false → GetParams b_prev = ep) in Hb.
  assert (Hs : GetParams s.1 = ep ∧ GetFormat s.1 = EVALUATION).
  { subst s. destruct (GetMode cp).
    - split; [apply GetParams_dgg|apply GetFormat_dgg].
    - split; [apply GetParams_tug|apply GetFormat_tug].
    - split; [apply GetParams_tug|apply GetFormat_tug]. }
  destruct Hs as [Hsp Hsf].
  split; [|split; [done|apply GetFormat_dgg]].
  assert (Hdraw : ∀ B (f : Element → M B),
             (draw_secret cp ≫= f) rng = f s.1 s.2).
  { intros B f. unfold draw_secret. subst s. fold ep sd.
    destruct (GetMode cp); apply bind_M_draw. }
  unfold MultipartyKeyGen_pubkey. fold cp ep sd.
  rewrite Hdraw, Hpk.
  rewrite (bind_M_lift_Ok _ _ _ a_prev) by reflexivity.
  rewrite bind_M_draw. fold e.
  assert (Has : GetParams a_prev = GetParams s.1) by congruence.
  assert (Hd : GetParams d = ep).
  { subst d. rewrite GetParams_sub.
    - rewrite GetParams_smul. subst e. apply GetParams_dgg.
    - rewrite GetParams_smul, GetParams_mul by done.
      subst e. rewrite GetParams_dgg. congruence. }
  erewrite bind_M_lift_Ok; [reflexivity|].
  rewrite (Times_same _ _ Has). simpl.
  rewrite Minus_same.
  - simpl. fold d. destruct fresh; [done|].
    simpl. apply Plus_same. rewrite Hd. symmetry. by apply Hb.
  - rewrite GetParams_smul, GetParams_mul by done.
    subst e. rewrite GetParams_dgg. congruence.
Qed.

(** ** C3: partial decryptions *)

(** C3. For a ciphertext [(c0, c1)] and a secret share [s] over the same
    parameters, in evaluation format: MultipartyDecryptLead returns a
    ciphertext with the single element [c0 + s*c1 + ns*e], switched to
    coefficient format; MultipartyDecryptMain returns the single element
    [s*c1 + ns*e], in evaluation format.  In both, [e] is drawn from the
    Gaussian of standard deviation [MP_SD]. *)
Theorem partial_decryption `{!LatticeLaws} (ciphertext : Ciphertext)
    (privateKey : PrivateKey) (c0 c1 : Element) (more : list Element)
    (rng : Rng) :
  GetElements ciphertext = c0 :: c1 :: more →
  Forall (λ x, GetParams x
                 = GetElementParams
                     (GetCryptoParameters (sk_context privateKey))
               ∧ GetFormat x = EVALUATION)
         [GetPrivateElement privateKey; c0; c1] →
  let cp := GetCryptoParameters (sk_context privateKey) in
  let s := GetPrivateElement privateKey in
  let e := Element_dgg MP_SD (GetElementParams cp) EVALUATION rng in
  let lead := add (add c0 (mul s c1)) (smul (GetNoiseScale cp) e.1) in
  let follower := add (mul s c1) (smul (GetNoiseScale cp) e.1) in
  (MultipartyDecryptLead ciphertext privateKey rng
   = Ok ({| ct_context := ct_context ciphertext;
            GetElements := [SwitchFormat lead] |}, e.2)
   ∧ GetFormat (SwitchFormat lead) = COEFFICIENT)
  ∧ (MultipartyDecryptMain ciphertext privateKey rng
     = Ok ({| ct_context := ct_context ciphertext;
              GetElements := [follower] |}, e.2)
     ∧ GetFormat follower = EVALUATION).
Proof.
  intros Hct Hall cp s e lead follower.
  inversion Hall as [|? ? [Hsp Hsf] Hall1]; subst.
  inversion Hall1 as [|? ? [H0p H0f] Hall2]; subst.
  inversion Hall2 as [|? ? [H1p H1f] _]; subst.
  fold cp in Hsp, H0p, H1p. fold s in Hsp, Hsf.
  set (ne := smul (GetNoiseScale cp) e.1).
  assert (Hep : GetParams ne = GetElementParams cp)
    by (subst ne e; by rewrite GetParams_smul, GetParams_dgg).
  assert (Hef : GetFormat ne = EVALUATION)
    by (subst ne e; by rewrite GetFormat_smul, GetFormat_dgg).
  assert (Hsc : compatible s c1) by (split; congruence).
  assert (Hmp : GetParams (mul s c1) = GetElementParams cp)
    by (rewrite GetParams_mul; [done|apply Hsc]).
  assert (Hmf : GetFormat (mul s c1) = EVALUATION)
    by (by rewrite GetFormat_mul).
  assert (Htp : GetParams (add c0 (mul s c1)) = GetElementParams cp)
    by (rewrite GetParams_add; congruence).
  assert (Htf : GetFormat (add c0 (mul s c1)) = EVALUATION)
    by (rewrite GetFormat_add; [done|split; congruence]).
  split; split.
  - unfold MultipartyDecryptLead. fold cp s.
    rewrite bind_M_draw, Hct. fold e ne.
    erewrite bind_M_lift_Ok; [reflexivity|].
    simpl. rewrite (Times_same s c1) by apply Hsc. simpl.
    rewrite Plus_same by congruence. simpl.
    apply Plus_same. congruence.
  - rewrite GetFormat_SwitchFormat. subst lead. fold ne.
    rewrite GetFormat_add; [by rewrite Htf|split; congruence].
  - unfold MultipartyDecryptMain. fold cp s.
    rewrite bind_M_draw, Hct. fold e ne.
    erewrite bind_M_lift_Ok; [reflexivity|].
    simpl. rewrite (Times_same s c1) by apply Hsc. simpl.
    apply Plus_same. congruence.
  - subst follower. fold ne.
    rewrite GetFormat_add; [done|split; congruence].
Qed.

(** ** C9: sums of keys commute *)

Lemma Plus_comm `{!LatticeLaws} x y :
  GetFormat x = GetFormat y → Plus x y = Plus y x.
Proof.
  intros Hf. destruct (decide (GetParams x = GetParams y)) as [Hp|Hp].
  - rewrite !Plus_same by done. f_equal. by apply add_comm.
  - rewrite !Plus_mismatch; [done|congruence|done].
Qed.

Lemma mapM_outcome_ext {A B} (f g : A → outcome B) (l : list A) :
  Forall (λ x, f x = g x) l → mapM_outcome f l = mapM_outcome g l.
Proof.
  induction 1 as [|x l Hx _ IH]; [done|]. simpl. by rewrite Hx, IH.
Qed.

(** C9. For public keys with the same [a] component and [b] components in
    the same representation, MultiAddPubKeys gives the same elements in
    either order, and the same key when the two keys belong to the same
    context; likewise MultiAddEvalKeys for evaluation keys with the same
    A-vector and B-vectors in the same representation. *)
Theorem add_keys_commute `{!LatticeLaws} :
  (∀ p1 p2 : PublicKey,
     GetPublicElements p1 !! 1%nat = GetPublicElements p2 !! 1%nat →
     (∀ b1 b2, GetPublicElements p1 !! 0%nat = Some b1 →
               GetPublicElements p2 !! 0%nat = Some b2 →
               GetFormat b1 = GetFormat b2) →
     (r ← MultiAddPubKeys p1 p2; Ok (GetPublicElements r))
     = (r ← MultiAddPubKeys p2 p1; Ok (GetPublicElements r))
     ∧ (pk_context p1 = pk_context p2 →
        MultiAddPubKeys p1 p2 = MultiAddPubKeys p2 p1))
  ∧ (∀ ek1 ek2 : EvalKey,
       GetAVector ek1 = GetAVector ek2 →
       (∀ i b1 b2, GetBVector ek1 !! i = Some b1 →
                   GetBVector ek2 !! i = Some b2 →
                   GetFormat b1 = GetFormat b2) →
       (r ← MultiAddEvalKeys ek1 ek2; Ok (GetAVector r, GetBVector r))
       = (r ← MultiAddEvalKeys ek2 ek1; Ok (GetAVector r, GetBVector r))
       ∧ (ek_context ek1 = ek_context ek2 →
          MultiAddEvalKeys ek1 ek2 = MultiAddEvalKeys ek2 ek1)).
Proof.
  split.
  - intros p1 p2 Ha Hf. unfold MultiAddPubKeys, at_index.
    rewrite <- Ha.
    destruct (GetPublicElements p1 !! 1%nat) as [a|];
      destruct (GetPublicElements p1 !! 0%nat) as [b1|] eqn:E1;
      destruct (GetPublicElements p2 !! 0%nat) as [b2|] eqn:E2;
      simpl; try done.
    rewrite (Plus_comm b1 b2) by (by apply Hf).
    split; [|intros ->]; by destruct (Plus b2 b1).
  - intros ek1 ek2 Ha Hf. unfold MultiAddEvalKeys. rewrite <- Ha.
    assert (Hb : mapM_outcome
                   (λ i, x ← at_index (GetBVector ek1) i;
                         y ← at_index (GetBVector ek2) i; Plus x y)
                   (seq 0 (length (GetAVector ek1)))
                 = mapM_outcome
                     (λ i, x ← at_index (GetBVector ek2) i;
                           y ← at_index (GetBVector ek1) i; Plus x y)
                     (seq 0 (length (GetAVector ek1)))).
    { apply mapM_outcome_ext, Forall_forall. intros i _.
      unfold at_index.
      destruct (GetBVector ek1 !! i) as [b1|] eqn:E1;
        destruct (GetBVector ek2 !! i) as [b2|] eqn:E2; simpl; try done.
      apply Plus_comm. by eapply Hf. }
    rewrite Hb.
    split; [|intros ->];
      match goal with
      | |- context [mapM_outcome ?f ?l] => by destruct (mapM_outcome f l)
      end.
Qed.

(** ** C4: fusion of partial decryptions *)

Lemma fusion_loop_same b (rest : list Ciphertext) (firsts : list Element)
    `{!LatticeLaws} :
  Forall2 (λ ct x, GetElements ct !! 0%nat = Some x) rest firsts →
  Forall (λ x, GetParams x = GetParams b) firsts →
  foldl_outcome (λ b cti, x ← at_index (GetElements cti) 0; Plus b x) b rest
  = Ok (fold_left add firsts b).
Proof.
  intros H2. revert b. induction H2 as [|ct x rest firsts Hx _ IH];
    intros b Hall; [done|].
  inversion Hall as [|? ? Hp Hrest]; subst.
  rewrite foldl_outcome_cons, (at_index_Some _ _ _ Hx), bind_Ok.
  rewrite Plus_same, bind_Ok by done. apply IH.
  eapply Forall_impl; [exact Hrest|]. intros y Hy.
  rewrite GetParams_add; done.
Qed.

Lemma fusion_loop_mismatch b (rest : list Ciphertext) (firsts : list Element)
    `{!LatticeLaws} :
  Forall2 (λ ct x, GetElements ct !! 0%nat = Some x) rest firsts →
  Exists (λ x, GetParams x ≠ GetParams b) firsts →
  foldl_outcome (λ b cti, x ← at_index (GetElements cti) 0; Plus b x) b rest
  = Throw ParameterMismatch.
Proof.
  intros H2. revert b. induction H2 as [|ct x rest firsts Hx _ IH];
    intros b Hex; [inversion Hex|].
  rewrite foldl_outcome_cons, (at_index_Some _ _ _ Hx), bind_Ok.
  destruct (decide (GetParams b = GetParams x)) as [Hp|Hp].
  - rewrite Plus_same, bind_Ok by done. apply IH.
    rewrite GetParams_add by done.
    inversion Hex as [? ? Hhd|? ? Htl]; subst; [congruence|done].
  - by rewrite Plus_mismatch.
Qed.

(** C4 (amended). MultipartyDecryptFusion makes no check for a lead partial.
    For a non-empty list of partials that each carry an element, it returns
    the native polynomial of the sum of their first elements, set to
    coefficient format, with its length, when the first elements have the
    ring parameters of the first one; when one of them has other parameters,
    the ParameterMismatch error of the ring addition is surfaced. *)
Theorem Fusion_sums_first_elements `{!LatticeLaws} (ct0 : Ciphertext)
    (rest : list Ciphertext) (b0 : Element) (firsts : list Element) :
  GetElements ct0 !! 0%nat = Some b0 →
  Forall2 (λ ct x, GetElements ct !! 0%nat = Some x) rest firsts →
  (Forall (λ x, GetParams x = GetParams b0) firsts →
   let plaintext :=
     ToNativePoly (SetFormat COEFFICIENT (fold_left add firsts b0)) in
   MultipartyDecryptFusion (ct0 :: rest)
   = Ok (plaintext, {| messageLength := GetLength plaintext |}))
  ∧ (Exists (λ x, GetParams x ≠ GetParams b0) firsts →
     MultipartyDecryptFusion (ct0 :: rest) = Throw ParameterMismatch).
Proof.
  intros H0 H2. unfold MultipartyDecryptFusion.
  change (at_index (ct0 :: rest) 0) with (Ok ct0).
  rewrite bind_Ok, (at_index_Some _ _ _ H0), bind_Ok.
  change (tail (ct0 :: rest)) with rest. split.
  - intros Hall. by rewrite (fusion_loop_same _ _ _ H2 Hall).
  - intros Hex. by rewrite (fusion_loop_mismatch _ _ _ H2 Hex).
Qed.

(** ** C5: sums of automorphism key maps *)

Lemma elem_of_ascending {V} (m : gmap Z V) k v :
  (k, v) ∈ ascending m ↔ m !! k = Some v.
Proof.
  unfold ascending. rewrite merge_sort_Permutation.
  apply elem_of_map_to_list.
Qed.

Lemma NoDup_ascending {V} (m : gmap Z V) : NoDup (ascending m).*1.
Proof.
  unfold ascending. rewrite merge_sort_Permutation.
  apply NoDup_fst_map_to_list.
Qed.

Lemma Sorted_ascending {V} (m : gmap Z V) : Sorted key_le (ascending m).
Proof.
  apply Sorted_merge_sort. intros x y. unfold key_le. lia.
Qed.

Lemma add_keys_step_Some (m2 acc : gmap Z EvalKey) k e1 e2 :
  m2 !! k = Some e2 →
  add_keys_step m2 acc (k, e1)
  = MultiAddEvalKeys e1 e2 ≫= λ r, Ok (<[k := r]> acc).
Proof. intros H. unfold add_keys_step. simpl. by rewrite H. Qed.

Lemma add_keys_step_None (m2 acc : gmap Z EvalKey) k e1 :
  m2 !! k = None → add_keys_step m2 acc (k, e1) = Ok acc.
Proof. intros H. unfold add_keys_step. simpl. by rewrite H. Qed.

(** Invariant of the loop over the first map: entries visited with a partner
    in the second map hold the sum, every other index is as in the
    accumulator. *)
Lemma add_keys_loop_Ok (m2 : gmap Z EvalKey) (l : list (Z * EvalKey)) :
  NoDup l.*1 → ∀ acc m,
  foldl_outcome (add_keys_step m2) acc l = Ok m →
  (∀ k e1 e2, (k, e1) ∈ l → m2 !! k = Some e2 →
     ∃ v, MultiAddEvalKeys e1 e2 = Ok v ∧ m !! k = Some v)
  ∧ (∀ k, k ∉ l.*1 ∨ m2 !! k = None → m !! k = acc !! k).
Proof.
  induction l as [|[k0 e0] l IH]; intros Hnd acc m Hrun.
  - injection Hrun as <-. split; [|done].
    intros k e1 e2 Hin. by apply elem_of_nil in Hin.
  - rewrite fmap_cons in Hnd. apply NoDup_cons in Hnd as [Hk0 Hnd].
    simpl in Hk0. rewrite foldl_outcome_cons in Hrun.
    destruct (m2 !! k0) as [e2'|] eqn:E2.
    + rewrite (add_keys_step_Some _ _ _ _ _ E2) in Hrun.
      destruct (MultiAddEvalKeys e0 e2') as [r| |] eqn:Er; try done.
      rewrite !bind_Ok in Hrun.
      destruct (IH Hnd _ _ Hrun) as [IH1 IH2]. split.
      * intros k e1 e2 Hin Hm2. apply elem_of_cons in Hin as [Heq|Hin].
        -- injection Heq as -> ->. exists r.
           rewrite IH2 by (by left). rewrite lookup_insert_eq.
           split; [congruence|done].
        -- by apply IH1.
      * intros k Hk. rewrite IH2.
        -- apply lookup_insert_ne. intros <-.
           destruct Hk as [Hk|Hk]; [|congruence].
           apply Hk. rewrite fmap_cons. by left.
        -- destruct Hk as [Hk|Hk]; [left|by right].
           intros Hin. apply Hk. rewrite fmap_cons. by right.
    + rewrite (add_keys_step_None _ _ _ _ E2), bind_Ok in Hrun.
      destruct (IH Hnd _ _ Hrun) as [IH1 IH2]. split.
      * intros k e1 e2 Hin Hm2. apply elem_of_cons in Hin as [Heq|Hin].
        -- injection Heq as -> ->. congruence.
        -- by apply IH1.
      * intros k Hk. apply IH2.
        destruct Hk as [Hk|Hk]; [left|by right].
        intros Hin. apply Hk. rewrite fmap_cons. by right.
Qed.

Lemma add_keys_loop_total (m2 : gmap Z EvalKey) (l : list (Z * EvalKey)) acc :
  (∀ k e1 e2, (k, e1) ∈ l → m2 !! k = Some e2 →
     ∃ v, MultiAddEvalKeys e1 e2 = Ok v) →
  ∃ m, foldl_outcome (add_keys_step m2) acc l = Ok m.
Proof.
  revert acc. induction l as [|[k0 e0] l IH]; intros acc Hok.
  - by exists acc.
  - rewrite foldl_outcome_cons.
    destruct (m2 !! k0) as [e2'|] eqn:E2.
    + destruct (Hok k0 e0 e2') as [v Hv]; [by left|done|].
      rewrite (add_keys_step_Some _ _ _ _ _ E2), Hv, !bind_Ok. apply IH.
      intros k e1 e2 Hin. apply Hok. by right.
    + rewrite (add_keys_step_None _ _ _ _ E2), bind_Ok. apply IH.
      intros k e1 e2 Hin. apply Hok. by right.
Qed.

(** C5. When MultiAddEvalAutomorphismKeys returns a map, its key set is the
    intersection of the key sets of the two inputs, its value at a common
    index is MultiAddEvalKeys of the two values there, and an index of only
    one input is absent; it returns a map whenever MultiAddEvalKeys returns a
    key at every common index.  MultiAddEvalSumKeys is the same function. *)
Theorem AddRotationKeyMaps_intersection (m1 m2 : gmap Z EvalKey) :
  (∀ m, MultiAddEvalAutomorphismKeys m1 m2 = Ok m →
     dom m = dom m1 ∩ dom m2
     ∧ (∀ k e1 e2, m1 !! k = Some e1 → m2 !! k = Some e2 →
          ∃ v, MultiAddEvalKeys e1 e2 = Ok v ∧ m !! k = Some v)
     ∧ (∀ k, m1 !! k = None ∨ m2 !! k = None → m !! k = None))
  ∧ ((∀ k e1 e2, m1 !! k = Some e1 → m2 !! k = Some e2 →
        ∃ v, MultiAddEvalKeys e1 e2 = Ok v) →
     ∃ m, MultiAddEvalAutomorphismKeys m1 m2 = Ok m)
  ∧ MultiAddEvalSumKeys m1 m2 = MultiAddEvalAutomorphismKeys m1 m2.
Proof.
  split; [|split; [|reflexivity]].
  - intros m Hrun. unfold MultiAddEvalAutomorphismKeys in Hrun.
    destruct (add_keys_loop_Ok m2 _ (NoDup_ascending m1) _ _ Hrun)
      as [Hin Hout].
    assert (Hnone : ∀ k, m1 !! k = None ∨ m2 !! k = None → m !! k = None).
    { intros k Hk. rewrite Hout; [apply lookup_empty|].
      destruct Hk as [Hk|Hk]; [left|by right].
      intros Hel. apply list_elem_of_fmap in Hel as [[k' e1] [-> Hel]].
      apply elem_of_ascending in Hel. simpl in Hk. congruence. }
    assert (Hsome : ∀ k e1 e2, m1 !! k = Some e1 → m2 !! k = Some e2 →
              ∃ v, MultiAddEvalKeys e1 e2 = Ok v ∧ m !! k = Some v).
    { intros k e1 e2 H1 H2. apply Hin; [|done]. by apply elem_of_ascending. }
    split; [|done].
    apply set_eq. intros k.
    rewrite elem_of_intersection, !elem_of_dom. split.
    + intros [v Hv].
      destruct (m1 !! k) as [e1|] eqn:E1;
        [|rewrite Hnone in Hv by (by left); done].
      destruct (m2 !! k) as [e2|] eqn:E2;
        [|rewrite Hnone in Hv by (by right); done].
      split; eauto.
    + intros [[e1 H1] [e2 H2]].
      destruct (Hsome k e1 e2 H1 H2) as [v [_ Hv]]. eauto.
  - intros Hok. apply add_keys_loop_total.
    intros k e1 e2 Hel. apply Hok. by apply elem_of_ascending.
Qed.

(** ** C6, C10: the automorphism-key loop *)

Section AutomorphismKeys.
Variables (privateKey : PrivateKey) (evalKeyMap : gmap Z EvalKey).
Let N : Z := usint (GetRingDimension (GetPrivateElement privateKey)).

Lemma foldl_M_cons {A B} (f : A → B → M A) acc x l :
  foldl_M f acc (x :: l) = f acc x ≫= λ acc', foldl_M f acc' l.
Proof. reflexivity. Qed.

Lemma automorphism_key_step_Ok result k ek r :
  invertible N k → KeySwitchGen_returns → evalKeyMap !! k = Some ek →
  ∃ v r', automorphism_key_step privateKey evalKeyMap result k r
          = Ok (<[k := v]> result, r').
Proof.
  intros [i Hi] Hks Hek. unfold automorphism_key_step. fold N.
  rewrite (bind_M_lift_Ok _ _ _ _ Hi).
  unfold find_second. rewrite Hek.
  rewrite (bind_M_lift_Ok _ _ _ ek) by reflexivity.
  unfold MultiKeySwitchGen.
  match goal with
  | |- context [KeySwitchGen ?c ?o ?n ?e] =>
      destruct (Hks c o n e r) as (v & r' & Hv)
  end.
  exists v, r'. by rewrite (bind_M_Ok _ _ _ _ _ Hv).
Qed.

Lemma automorphism_key_step_missing result k r :
  invertible N k → evalKeyMap !! k = None →
  automorphism_key_step privateKey evalKeyMap result k r
  = Undefined end_iterator_dereference.
Proof.
  intros [i Hi] Hek. unfold automorphism_key_step. fold N.
  rewrite (bind_M_lift_Ok _ _ _ _ Hi).
  unfold find_second. rewrite Hek. reflexivity.
Qed.


Lemma automorphism_loop_Ok (l : list Z) :
  Forall (invertible N) l → KeySwitchGen_returns →
  Forall (λ k, is_Some (evalKeyMap !! k)) l →
  ∀ acc r, ∃ res r',
    foldl_M (automorphism_key_step privateKey evalKeyMap) acc l r
    = Ok (res, r')
    ∧ dom res = dom acc ∪ list_to_set l.
Proof.
  intros Hinv Hks Hpres.
  induction l as [|k l IH]; intros acc r.
  - exists acc, r. split; [done|].
    by rewrite list_to_set_nil, (right_id_L ∅ (∪)).
  - inversion Hinv as [|? ? Hk Hinv']; subst.
    inversion Hpres as [|? ? [ek Hek] Hpres']; subst.
    destruct (automorphism_key_step_Ok acc k ek r Hk Hks Hek)
      as (v & r1 & Hstep).
    destruct (IH Hinv' Hpres' (<[k := v]> acc) r1) as (res & r' & Hrun & Hdom).
    exists res, r'. split.
    + by rewrite foldl_M_cons, (bind_M_Ok _ _ _ _ _ Hstep).
    + rewrite Hdom, dom_insert_L, list_to_set_cons.
      rewrite (comm_L (∪) {[k]} (dom acc)). by rewrite (assoc_L (∪)).
Qed.

Lemma automorphism_loop_missing (l : list Z) :
  Forall (invertible N) l → KeySwitchGen_returns →
  Exists (λ k, evalKeyMap !! k = None) l →
  ∀ acc r,
    foldl_M (automorphism_key_step privateKey evalKeyMap) acc l r
    = Undefined end_iterator_dereference.
Proof.
  intros Hinv Hks Hex.
  induction l as [|k l IH]; intros acc r; [inversion Hex|].
  inversion Hinv as [|? ? Hk Hinv']; subst.
  rewrite foldl_M_cons.
  destruct (evalKeyMap !! k) as [ek|] eqn:Hek.
  - destruct (automorphism_key_step_Ok acc k ek r Hk Hks Hek)
      as (v & r1 & Hstep).
    rewrite (bind_M_Ok _ _ _ _ _ Hstep). apply IH; [done|].
    inversion Hex as [? ? Hhd|? ? Htl]; subst; [congruence|done].
  - apply bind_M_Undefined. by apply automorphism_key_step_missing.
Qed.


Lemma dimension_check_fires (l : list Z) r :
  Z.of_nat (length l) > usint (N - 1) →
  MultiEvalAutomorphismKeyGen privateKey evalKeyMap l r = Throw size_exceeds.
Proof.
  intros H. unfold MultiEvalAutomorphismKeyGen. fold N.
  by rewrite decide_True.
Qed.

Lemma dimension_check_passes (l : list Z) r :
  Z.of_nat (length l) ≤ usint (N - 1) →
  runs_in_parallel l = false →
  MultiEvalAutomorphismKeyGen privateKey evalKeyMap l r
  = foldl_M (automorphism_key_step privateKey evalKeyMap) ∅ l r.
Proof.
  intros H Hseq. unfold MultiEvalAutomorphismKeyGen. fold N.
  rewrite decide_False by lia. by rewrite Hseq.
Qed.

Lemma parallel_loop_races (l : list Z) r :
  Z.of_nat (length l) ≤ usint (N - 1) →
  runs_in_parallel l = true →
  MultiEvalAutomorphismKeyGen privateKey evalKeyMap l r
  = Undefined data_race.
Proof.
  intros H Hpar. unfold MultiEvalAutomorphismKeyGen. fold N.
  rewrite decide_False by lia. by rewrite Hpar.
Qed.

End AutomorphismKeys.

Lemma runs_in_parallel_false (l : list Z) :
  runs_in_parallel l = false ↔ (length l < 4)%nat ∨ (omp_team ≤ 1)%nat.
Proof.
  unfold runs_in_parallel. rewrite andb_false_iff.
  rewrite !bool_decide_eq_false. lia.
Qed.


(** C10. Past the dimension check, with collaborators that return,
    MultiEvalAutomorphismKeyGen needs every listed index to be a key of the
    prior map.  With the indices present and the loop run by one thread,
    every lookup succeeds and the returned map has exactly the listed
    indices as keys, one entry per index; with the loop run by a team, the
    iterations race on the result map and no such map is guaranteed.  If a
    listed index is missing, the call is undefined whatever the runtime; on
    one thread it is the dereference of the end iterator. *)
Theorem BuildRotationKeys_lookup_precondition (privateKey : PrivateKey)
    (evalKeyMap : gmap Z EvalKey) (indexList : list Z) (rng : Rng) :
  Z.of_nat (length indexList)
  ≤ usint (usint (GetRingDimension (GetPrivateElement privateKey)) - 1) →
  Forall (invertible
            (usint (GetRingDimension (GetPrivateElement privateKey))))
         indexList →
  KeySwitchGen_returns →
  ((∀ k, k ∈ indexList → k ∈ dom evalKeyMap) →
   if runs_in_parallel indexList
   then MultiEvalAutomorphismKeyGen privateKey evalKeyMap indexList rng
        = Undefined data_race
   else ∃ res r',
          MultiEvalAutomorphismKeyGen privateKey evalKeyMap indexList rng
          = Ok (res, r')
          ∧ dom res = list_to_set indexList
          ∧ (NoDup indexList → size res = length indexList))
  ∧ ((∃ k, k ∈ indexList ∧ k ∉ dom evalKeyMap) →
     ∃ u, MultiEvalAutomorphismKeyGen privateKey evalKeyMap indexList rng
          = Undefined u
          ∧ (runs_in_parallel indexList = false →
             u = end_iterator_dereference)).
Proof.
  intros Hlen Hinv Hks. split.
  - intros Hpres. destruct (runs_in_parallel indexList) eqn:Hpar.
    { by apply parallel_loop_races. }
    rewrite dimension_check_passes by done.
    destruct (automorphism_loop_Ok privateKey evalKeyMap indexList
                Hinv Hks) with (acc := (∅ : gmap Z EvalKey)) (r := rng)
      as (res & r' & Hrun & Hdom).
    { apply Forall_forall. intros k Hk. by apply elem_of_dom, Hpres. }
    exists res, r'. split; [done|].
    assert (Hd : dom res = list_to_set indexList)
      by (by rewrite Hdom, dom_empty_L, (left_id_L ∅ (∪))).
    split; [done|]. intros Hnd.
    by rewrite <- size_dom, Hd, size_list_to_set.
  - intros (k & Hk & Hmiss). destruct (runs_in_parallel indexList) eqn:Hpar.
    { exists data_race. split; [by apply parallel_loop_races|done]. }
    exists end_iterator_dereference. split; [|done].
    rewrite dimension_check_passes by done.
    apply automorphism_loop_missing; [done|done|].
    apply Exists_exists. exists k. split; [done|].
    by apply not_elem_of_dom.
Qed.

(** ** C8: indices of the summation keys *)

Lemma usint_range z : 0 ≤ usint z < 2 ^ 32.
Proof. unfold usint. apply Z.mod_pos_bound. done. Qed.

(** One squaring on [usint] followed by the reduction is the squaring modulo
    [M], when [M] divides [2^32] or is at most [2^16]. *)
Lemma square_index_step (M0 : Z) (j : nat) :
  0 < M0 → ((M0 | 2 ^ 32) ∨ M0 ≤ 2 ^ 16) →
  usint (square_index M0 j * square_index M0 j) mod M0
  = square_index M0 (S j).
Proof.
  intros HM Hcase. set (g := square_index M0 j).
  assert (Hsq : (g * g) mod M0 = square_index M0 (S j)).
  { subst g. unfold square_index.
    rewrite (decide_False (P := S j = 0%nat)) by lia.
    replace (2 ^ Z.of_nat (S j)) with (2 ^ Z.of_nat j + 2 ^ Z.of_nat j)
      by (rewrite Nat2Z.inj_succ, Z.pow_succ_r; lia).
    rewrite Z.pow_add_r by (apply Z.pow_nonneg; lia).
    destruct (decide (j = 0%nat)) as [->|Hj]; [done|].
    by rewrite <- Zmult_mod. }
  rewrite <- Hsq. unfold usint. destruct Hcase as [Hdiv|Hsmall].
  - apply Z.mod_mod_divide. done.
  - f_equal. apply Z.mod_small.
    assert (Hg : 0 ≤ g < 2 ^ 16).
    { subst g. unfold square_index. destruct (decide (j = 0%nat)); [lia|].
      pose proof (Z.mod_pos_bound (5 ^ 2 ^ Z.of_nat j) M0 HM). lia. }
    nia.
Qed.

Lemma sum_indices_from (M0 : Z) (n j : nat) :
  0 < M0 → ((M0 | 2 ^ 32) ∨ M0 ≤ 2 ^ 16) →
  sum_indices M0 n (square_index M0 j) = Ok (square_index M0 <$> seq j n).
Proof.
  intros HM Hcase. revert j. induction n as [|n IH]; intros j; [done|].
  cbn [sum_indices]. rewrite decide_False by lia.
  rewrite square_index_step by done.
  rewrite IH. reflexivity.
Qed.

(** The restriction on [M] matters: for another order above [2^16] the
    32-bit product wraps before the reduction. *)
Example sum_indices_wraps :
  sum_indices 100003 5 5 = Ok [5; 25; 625; 90616; 74677]
  ∧ squarings 100003 5 = [5; 25; 625; 90616; 13126].
Proof. split; vm_compute; reflexivity. Qed.

(** C8. For a batch size [B >= 1] and a cyclotomic order [M > 0] that
    divides [2^32] (a power of two) or is at most [2^16], MultiEvalSumKeyGen
    generates the [ceil(log2 B)] indices [5, 5^2 mod M, 5^4 mod M, ...] and
    calls MultiEvalAutomorphismKeyGen on them; for [B = 1] the list is empty
    and the returned map is empty. *)
Theorem BuildSumKeys_indices (privateKey : PrivateKey)
    (evalKeyMap : gmap Z EvalKey) (rng : Rng) :
  1 ≤ GetBatchSize (GetEncodingParams
                      (GetCryptoParameters (sk_context privateKey))) →
  0 < GetCyclotomicOrder (GetElementParams
                            (GetCryptoParameters (sk_context privateKey))) →
  ((GetCyclotomicOrder (GetElementParams
                          (GetCryptoParameters (sk_context privateKey)))
    | 2 ^ 32)
   ∨ GetCyclotomicOrder (GetElementParams
                           (GetCryptoParameters (sk_context privateKey)))
     ≤ 2 ^ 16) →
  let cp := GetCryptoParameters (sk_context privateKey) in
  let B := GetBatchSize (GetEncodingParams cp) in
  let M0 := GetCyclotomicOrder (GetElementParams cp) in
  let n := Z.to_nat (Z.log2_up B) in
  length (squarings M0 n) = n
  ∧ B ≤ 2 ^ Z.of_nat n ∧ (1 < B → 2 ^ (Z.of_nat n - 1) < B)
  ∧ MultiEvalSumKeyGen privateKey evalKeyMap rng
    = MultiEvalAutomorphismKeyGen privateKey evalKeyMap (squarings M0 n) rng
  ∧ (B = 1 →
     squarings M0 n = []
     ∧ MultiEvalSumKeyGen privateKey evalKeyMap rng = Ok (∅, rng)).
Proof.
  intros HB HM Hcase cp B M0 n.
  assert (Hn : Z.of_nat n = Z.log2_up B).
  { subst n. apply Z2Nat.id, Z.log2_up_nonneg. }
  assert (Hrun : MultiEvalSumKeyGen privateKey evalKeyMap rng
                 = MultiEvalAutomorphismKeyGen privateKey evalKeyMap
                     (squarings M0 n) rng).
  { unfold MultiEvalSumKeyGen. fold cp B M0.
    unfold ceil_log2. rewrite decide_False by (subst B cp; lia). fold n.
    rewrite (bind_M_lift_Ok _ _ _ n) by reflexivity.
    erewrite bind_M_lift_Ok; [reflexivity|].
    apply (sum_indices_from M0 n 0); done. }
  split; [|split; [|split; [|split]]].
  - unfold squarings. by rewrite length_fmap, length_seq.
  - rewrite Hn. destruct (decide (B = 1)) as [->|]; [done|].
    apply Z.log2_up_spec. subst B cp. lia.
  - intros H1. rewrite Hn.
    replace (Z.log2_up B - 1) with (Z.pred (Z.log2_up B)) by lia.
    by apply Z.log2_up_spec.
  - exact Hrun.
  - intros HB1.
    assert (Hn0 : n = 0%nat) by (subst n; by rewrite HB1).
    rewrite Hrun, Hn0. split; [done|].
    unfold MultiEvalAutomorphismKeyGen.
    change (length (squarings M0 0)) with 0%nat.
    rewrite decide_False; [done|].
    pose proof (usint_range
      (usint (GetRingDimension (GetPrivateElement privateKey)) - 1)).
    lia.
Qed.

End Properties.

(** * The small instance satisfies the interface laws; the theorems at
      concrete inputs *)

#[global] Instance Small_laws : @LatticeLaws Small.lattice.
Proof.
  split; try done.
  - intros [p f v] [p' f' v'] [Hp Hf]. simpl in *. subst.
    unfold add, Small.lattice, Small.lift2, Small.mk. simpl.
    f_equal. lia.
  - intros [p f v] [p' f' v'] [p'' f'' v''] _ _.
    unfold add, Small.lattice, Small.lift2, Small.mk. simpl.
    f_equal. lia.
  - by intros [p f v].
Qed.

Lemma Small_KeySwitchGen_returns : @KeySwitchGen_returns Small.lattice Small.scheme.
Proof. intros cc old new ek r. eexists _, _. reflexivity. Qed.


Lemma AggregateKeyGen_joint_key_witness :
  MultipartyKeyGen_shares Small.context
    [Small.share 3; Small.share 4; Small.share 5] false 11
  = Ok ({| publicKey := Small.pubkey (-384) 32;
           secretKey := Small.share 12 |}, 13).
Proof.
  destruct (AggregateKeyGen_joint_key Small.context (Small.share 3)
              [Small.share 4; Small.share 5] false 11) as [H _].
  - repeat constructor.
  - exact H.
Defined.

Lemma AggregateKeyGen_parameter_mismatch_witness :
  MultipartyKeyGen_shares Small.context
    [Small.share 3; Small.foreign_share 4] false 11
  = Throw ParameterMismatch.
Proof.
  apply (AggregateKeyGen_parameter_mismatch Small.context
           [Small.share 3; Small.foreign_share 4] false 11
           (Small.share 3) (Small.foreign_share 4)).
  - by left.
  - right. by left.
  - discriminate.
Defined.

Lemma ExtendKeyGen_public_key_witness :
  MultipartyKeyGen_pubkey Small.context (Small.pubkey 10 20) false false 5
  = Ok ({| publicKey := Small.pubkey (-10) 20;
           secretKey := Small.share 1 |}, 7)
  ∧ MultipartyKeyGen_pubkey Small.context (Small.pubkey 10 20) false true 5
    = Ok ({| publicKey := Small.pubkey (-20) 20;
             secretKey := Small.share 1 |}, 7).
Proof.
  split.
  - destruct (ExtendKeyGen_public_key Small.context (Small.pubkey 10 20)
                (Small.mk Small.params EVALUATION 10)
                (Small.mk Small.params EVALUATION 20) [] false false 5)
      as [H _]; [reflexivity|reflexivity|reflexivity|exact H].
  - destruct (ExtendKeyGen_public_key Small.context (Small.pubkey 10 20)
                (Small.mk Small.params EVALUATION 10)
                (Small.mk Small.params EVALUATION 20) [] false true 5)
      as [H _]; [reflexivity|reflexivity|discriminate|exact H].
Defined.

Lemma partial_decryption_witness :
  MultipartyDecryptLead (Small.ciphertext 10 20) (Small.share 3) 5
  = Ok (Small.partial COEFFICIENT (-1048468), 6)
  ∧ MultipartyDecryptMain (Small.ciphertext 10 20) (Small.share 3) 5
    = Ok (Small.partial EVALUATION (-1048478), 6).
Proof.
  destruct (partial_decryption (Small.ciphertext 10 20) (Small.share 3)
              (Small.mk Small.params EVALUATION 10)
              (Small.mk Small.params EVALUATION 20) [] 5)
    as [[Hlead _] [Hmain _]].
  - reflexivity.
  - repeat constructor.
  - split; [exact Hlead|exact Hmain].
Defined.

Lemma add_keys_commute_witness :
  MultiAddPubKeys (Small.pubkey 10 20) (Small.pubkey 30 20)
  = MultiAddPubKeys (Small.pubkey 30 20) (Small.pubkey 10 20)
  ∧ MultiAddEvalKeys (Small.evalkey [1; 2] [3; 4])
      (Small.evalkey [1; 2] [10; 20])
    = MultiAddEvalKeys (Small.evalkey [1; 2] [10; 20])
        (Small.evalkey [1; 2] [3; 4]).
Proof.
  destruct (add_keys_commute (L := Small.lattice)) as [Hpk Hek]. split.
  - apply (Hpk (Small.pubkey 10 20) (Small.pubkey 30 20)); [reflexivity| |reflexivity].
    intros b1 b2 H1 H2. injection H1 as <-. injection H2 as <-. reflexivity.
  - apply (Hek (Small.evalkey [1; 2] [3; 4]) (Small.evalkey [1; 2] [10; 20]));
      [reflexivity| |reflexivity].
    intros [|[|i]] b1 b2 H1 H2; try discriminate H1.
    + injection H1 as <-. injection H2 as <-. reflexivity.
    + injection H1 as <-. injection H2 as <-. reflexivity.
Defined.

(** C4, the claim as stated fails: fusing two follower partials, with no
    lead partial among them, returns a result, and fusing the empty list
    reaches the unguarded access [ciphertextVec[0]] instead of raising an
    error. *)
Lemma Fusion_without_lead_partial :
  MultipartyDecryptMain (Small.ciphertext 10 20) (Small.share 3) 5
  = Ok (Small.partial EVALUATION (-1048478), 6)
  ∧ MultipartyDecryptMain (Small.ciphertext 10 20) (Small.share 4) 6
    = Ok (Small.partial EVALUATION (-1048451), 7)
  ∧ MultipartyDecryptFusion
      [Small.partial EVALUATION (-1048478); Small.partial EVALUATION (-1048451)]
    = Ok ([-2096929], {| messageLength := 1 |})
  ∧ MultipartyDecryptFusion (L := Small.lattice) []
    = Undefined vector_out_of_range.
Proof. repeat split. Qed.

Lemma Fusion_sums_first_elements_witness :
  MultipartyDecryptFusion
    [Small.partial COEFFICIENT (-1048468); Small.partial EVALUATION (-1048451)]
  = Ok ([-2096919], {| messageLength := 1 |})
  ∧ MultipartyDecryptFusion
      [Small.partial COEFFICIENT (-1048468);
       {| ct_context := Small.context;
          GetElements := [Small.mk Small.other_params EVALUATION 7] |}]
    = Throw ParameterMismatch.
Proof.
  split.
  - apply (Fusion_sums_first_elements
             (Small.partial COEFFICIENT (-1048468))
             [Small.partial EVALUATION (-1048451)]
             (Small.mk Small.params COEFFICIENT (-1048468))
             [Small.mk Small.params EVALUATION (-1048451)]).
    + reflexivity.
    + repeat constructor.
    + repeat constructor.
  - apply (Fusion_sums_first_elements
             (Small.partial COEFFICIENT (-1048468))
             [{| ct_context := Small.context;
                 GetElements := [Small.mk Small.other_params EVALUATION 7] |}]
             (Small.mk Small.params COEFFICIENT (-1048468))
             [Small.mk Small.other_params EVALUATION 7]).
    + reflexivity.
    + repeat constructor.
    + left. discriminate.
Defined.

Lemma AddRotationKeyMaps_intersection_witness :
  MultiAddEvalAutomorphismKeys Small.map1 Small.map2 = Ok Small.map_sum
  ∧ dom Small.map_sum = dom Small.map1 ∩ dom Small.map2.
Proof.
  destruct (AddRotationKeyMaps_intersection Small.map1 Small.map2)
    as [Hok _].
  assert (Hrun : MultiAddEvalAutomorphismKeys Small.map1 Small.map2
                 = Ok Small.map_sum) by (vm_compute; reflexivity).
  split; [exact Hrun|]. exact (proj1 (Hok _ Hrun)).
Defined.


Lemma BuildRotationKeys_lookup_precondition_witness :
  MultiEvalAutomorphismKeyGen (Small.share 3)
    (Small.prior Small.four_indices) Small.four_indices 0
  = Undefined data_race
  ∧ (∃ res r', MultiEvalAutomorphismKeyGen (Omp := Small.one_thread)
                 (Small.share 3) (Small.prior Small.four_indices)
                 Small.four_indices 0 = Ok (res, r')
               ∧ dom res = list_to_set Small.four_indices
               ∧ (NoDup Small.four_indices → size res = 4%nat))
  ∧ ∃ u, MultiEvalAutomorphismKeyGen (Small.share 3) (Small.prior [3; 5; 7])
           [3; 9] 0
         = Undefined u
         ∧ (runs_in_parallel [3; 9] = false → u = end_iterator_dereference).
Proof.
  assert (Hlen : Z.of_nat (length Small.four_indices)
                 ≤ usint (usint (GetRingDimension
                                   (GetPrivateElement (Small.share 3))) - 1))
    by (vm_compute; discriminate).
  assert (Hinv : Forall (invertible 8) Small.four_indices)
    by (repeat constructor; eexists; vm_compute; reflexivity).
  assert (Hpres : ∀ k, k ∈ Small.four_indices
                       → k ∈ dom (Small.prior Small.four_indices)).
  { intros k Hk. apply elem_of_dom. revert k Hk. apply Forall_forall.
    repeat constructor; eexists; vm_compute; reflexivity. }
  split; [|split].
  - exact (proj1 (BuildRotationKeys_lookup_precondition (Small.share 3)
                    (Small.prior Small.four_indices) Small.four_indices 0
                    Hlen Hinv Small_KeySwitchGen_returns) Hpres).
  - exact (proj1 (BuildRotationKeys_lookup_precondition
                    (Omp := Small.one_thread) (Small.share 3)
                    (Small.prior Small.four_indices) Small.four_indices 0
                    Hlen Hinv Small_KeySwitchGen_returns) Hpres).
  - destruct (BuildRotationKeys_lookup_precondition (Small.share 3)
                (Small.prior [3; 5; 7]) [3; 9] 0) as [_ Hmiss].
    + vm_compute. discriminate.
    + repeat constructor; eexists; vm_compute; reflexivity.
    + exact Small_KeySwitchGen_returns.
    + apply Hmiss. exists 9. split.
      * right. by left.
      * apply not_elem_of_dom. vm_compute. reflexivity.
Defined.

Lemma BuildSumKeys_indices_witness :
  Small.squarings_16 = [5; 9; 1]
  ∧ MultiEvalSumKeyGen (Small.share 3) (Small.prior [1; 5; 9]) 0
    = MultiEvalAutomorphismKeyGen (Small.share 3) (Small.prior [1; 5; 9])
        [5; 9; 1] 0.
Proof.
  destruct (BuildSumKeys_indices (Small.share 3) (Small.prior [1; 5; 9]) 0)
    as (_ & _ & _ & Hrun & _).
  - simpl. lia.
  - simpl. lia.
  - left. exists (2 ^ 28). reflexivity.
  - split; [reflexivity|exact Hrun].
Defined.

(** * Further properties of the file's functions *)

Section MoreProperties.
Context `{L : Lattice} `{Sch : !Scheme} `{Rules : !AutomorphismIndexRules}.
Context `{Omp : OpenMP}.

Lemma Times_mismatch x y :
  GetParams x ≠ GetParams y → Times x y = Throw ParameterMismatch.
Proof. intros H. unfold Times. by rewrite decide_False. Qed.

Lemma at_index_None {A} (v : list A) i :
  v !! i = None → at_index v i = Undefined vector_out_of_range.
Proof. intros H. unfold at_index. by rewrite H. Qed.

(** ** Loops that collect results *)

Lemma mapM_outcome_Ok {A B} (f : A → outcome B) (l : list A) (r : list B) :
  mapM_outcome f l = Ok r ↔ Forall2 (λ x y, f x = Ok y) l r.
Proof.
  revert r. induction l as [|x l IH]; intros r; simpl.
  - split.
    + intros Heq. injection Heq as <-. constructor.
    + intros H. by inversion H.
  - destruct (f x) as [y| |] eqn:Hx; simpl.
    + destruct (mapM_outcome f l) as [ys| |] eqn:Hl; simpl.
      * split.
        -- intros Heq. injection Heq as <-. constructor; [done|]. by apply IH.
        -- intros H. inversion H as [|? y' ? ys' Hy Hys]; subst.
           apply IH in Hys. congruence.
      * split; [done|]. intros H. inversion H as [|? y' ? ys' Hy Hys]; subst.
        by apply IH in Hys.
      * split; [done|]. intros H. inversion H as [|? y' ? ys' Hy Hys]; subst.
        by apply IH in Hys.
    + split; [done|]. intros H. inversion H; congruence.
    + split; [done|]. intros H. inversion H; congruence.
Qed.

(** A loop over the indices [0 .. n-1] returns a list exactly when every
    iteration returns; the list has one entry per index. *)
Lemma mapM_outcome_seq_Ok {B} (f : nat → outcome B) (n : nat) (r : list B) :
  mapM_outcome f (seq 0 n) = Ok r
  ↔ length r = n ∧ ∀ i, (i < n)%nat → ∃ y, r !! i = Some y ∧ f i = Ok y.
Proof.
  rewrite mapM_outcome_Ok, Forall2_same_length_lookup, length_seq. split.
  - intros [Hlen H]. split; [done|]. intros i Hi.
    destruct (lookup_lt_is_Some_2 r i) as [y Hy]; [lia|].
    exists y. split; [done|]. eapply H; [|done].
    by apply lookup_seq_lt.
  - intros [Hlen H]. split; [done|]. intros i x y Hx Hy.
    apply lookup_seq in Hx as [-> Hi]. destruct (H i Hi) as (y' & Hy' & Hf).
    simpl. congruence.
Qed.

Lemma sum_digit_Ok (b1 b2 : list Element) (i : nat) (z : Element) :
  (x ← at_index b1 i; y ← at_index b2 i; Plus x y) = Ok z
  ↔ ∃ x y, b1 !! i = Some x ∧ b2 !! i = Some y
           ∧ GetParams x = GetParams y ∧ z = add x y.
Proof.
  unfold at_index, Plus.
  destruct (b1 !! i) as [x|]; simpl; [|split; [done|by intros (?&?&?&_)]].
  destruct (b2 !! i) as [y|]; simpl; [|split; [done|by intros (?&?&_&?&_)]].
  destruct (decide (GetParams x = GetParams y)) as [Hp|Hp].
  - split.
    + intros Heq. injection Heq as <-. by exists x, y.
    + intros (x' & y' & Hx & Hy & _ & ->). congruence.
  - split; [done|]. intros (x' & y' & Hx & Hy & Hp' & _). congruence.
Qed.

(** ** MultiAddEvalKeys: when it returns, and what *)

Lemma MultiAddEvalKeys_Ok_spec (evalKey1 evalKey2 r : EvalKey) :
  MultiAddEvalKeys evalKey1 evalKey2 = Ok r
  ↔ ek_context r = ek_context evalKey1
    ∧ GetAVector r = GetAVector evalKey1
    ∧ length (GetBVector r) = length (GetAVector evalKey1)
    ∧ ∀ i, (i < length (GetAVector evalKey1))%nat →
        ∃ x y, GetBVector evalKey1 !! i = Some x
               ∧ GetBVector evalKey2 !! i = Some y
               ∧ GetParams x = GetParams y
               ∧ GetBVector r !! i = Some (add x y).
Proof.
  unfold MultiAddEvalKeys. split.
  - destruct (mapM_outcome _ _) as [b| |] eqn:Hb; simpl; try done.
    intros Heq. injection Heq as <-. simpl.
    apply mapM_outcome_seq_Ok in Hb as [Hlen Hb].
    split; [done|split; [done|split; [done|]]].
    intros i Hi. destruct (Hb i Hi) as (z & Hz & Hsum).
    apply sum_digit_Ok in Hsum as (x & y & Hx & Hy & Hp & ->).
    by exists x, y.
  - intros (Hcc & Ha & Hlen & Hdig).
    assert (Hb : mapM_outcome
                   (λ i, x ← at_index (GetBVector evalKey1) i;
                         y ← at_index (GetBVector evalKey2) i; Plus x y)
                   (seq 0 (length (GetAVector evalKey1)))
                 = Ok (GetBVector r)).
    { apply mapM_outcome_seq_Ok. split; [done|]. intros i Hi.
      destruct (Hdig i Hi) as (x & y & Hx & Hy & Hp & Hr).
      exists (add x y). split; [done|]. apply sum_digit_Ok. by exists x, y. }
    rewrite Hb. simpl. destruct r as [cc a b]. simpl in *. by subst.
Qed.

(** X1. MultiAddEvalKeys returns a key exactly when both B-vectors reach the
    length of the first key's A-vector and the summed entries have the same
    ring parameters; the key returned has the context and the A-vector of
    the first key and a B-vector of that same length, made of the sums
    [b1[i] + b2[i]].  B-entries past the A-vector's length are dropped. *)
Theorem MultiAddEvalKeys_Ok_iff (evalKey1 evalKey2 r : EvalKey) :
  MultiAddEvalKeys evalKey1 evalKey2 = Ok r
  ↔ ek_context r = ek_context evalKey1
    ∧ GetAVector r = GetAVector evalKey1
    ∧ length (GetBVector r) = length (GetAVector evalKey1)
    ∧ ∀ i, (i < length (GetAVector evalKey1))%nat →
        ∃ x y, GetBVector evalKey1 !! i = Some x
               ∧ GetBVector evalKey2 !! i = Some y
               ∧ GetParams x = GetParams y
               ∧ GetBVector r !! i = Some (add x y).
Proof. exact (MultiAddEvalKeys_Ok_spec evalKey1 evalKey2 r). Qed.

Lemma mapM_outcome_total {A B} (f : A → outcome B) (l : list A) :
  Forall (λ x, ∃ y, f x = Ok y) l → ∃ r, mapM_outcome f l = Ok r.
Proof.
  induction 1 as [|x l [y Hy] _ [r Hr]]; [by exists []|].
  exists (y :: r). simpl. by rewrite Hy, Hr.
Qed.

Lemma MultiAddEvalKeys_total (evalKey1 evalKey2 : EvalKey) :
  (∀ i, (i < length (GetAVector evalKey1))%nat →
     ∃ x y, GetBVector evalKey1 !! i = Some x
            ∧ GetBVector evalKey2 !! i = Some y
            ∧ GetParams x = GetParams y) →
  ∃ r, MultiAddEvalKeys evalKey1 evalKey2 = Ok r.
Proof.
  intros Hdig. unfold MultiAddEvalKeys.
  destruct (mapM_outcome_total
              (λ i, x ← at_index (GetBVector evalKey1) i;
                    y ← at_index (GetBVector evalKey2) i; Plus x y)
              (seq 0 (length (GetAVector evalKey1)))) as [b Hb].
  - apply Forall_forall. intros i Hi. apply elem_of_seq in Hi.
    destruct (Hdig i) as (x & y & Hx & Hy & Hp); [lia|].
    exists (add x y). apply sum_digit_Ok. by exists x, y.
  - rewrite Hb. simpl. eauto.
Qed.

(** X2. For evaluation keys whose first two A-vectors have the same length
    and whose B-entries are in one representation, summing three keys
    returns the same key whichever pair is summed first. *)
Theorem MultiAddEvalKeys_assoc `{!LatticeLaws} (ek1 ek2 ek3 r : EvalKey)
    (f : Format) :
  length (GetAVector ek1) = length (GetAVector ek2) →
  Forall (λ x, GetFormat x = f)
         (GetBVector ek1 ++ GetBVector ek2 ++ GetBVector ek3) →
  (ek12 ← MultiAddEvalKeys ek1 ek2; MultiAddEvalKeys ek12 ek3) = Ok r
  ↔ (ek23 ← MultiAddEvalKeys ek2 ek3; MultiAddEvalKeys ek1 ek23) = Ok r.
Proof.
  intros Hlen Hfmt.
  apply Forall_app in Hfmt as [Hf1 Hfmt]. apply Forall_app in Hfmt as [Hf2 Hf3].
  assert (Hfm : ∀ (l : list Element) i x,
             Forall (λ x, GetFormat x = f) l → l !! i = Some x →
             GetFormat x = f).
  { intros l i x Hall Hx. eapply Forall_lookup_1 in Hall; [|exact Hx]. done. }
  split.
  - destruct (MultiAddEvalKeys ek1 ek2) as [ek12| |] eqn:H12; simpl; try done.
    intros Hr. apply MultiAddEvalKeys_Ok_spec in H12 as (Hc12 & Ha12 & Hl12 & Hd12).
    apply MultiAddEvalKeys_Ok_spec in Hr as (Hcr & Har & Hlr & Hdr).
    rewrite Ha12 in Hdr, Hlr, Har.
    destruct (MultiAddEvalKeys_total ek2 ek3) as [ek23 H23].
    { intros i Hi. rewrite <- Hlen in Hi.
      destruct (Hd12 i Hi) as (x1 & x2 & H1 & H2 & Hp12 & Hs12).
      destruct (Hdr i Hi) as (z & x3 & Hz & H3 & Hp3 & _).
      exists x2, x3. split; [done|split; [done|]].
      assert (z = add x1 x2) as -> by congruence.
      rewrite GetParams_add in Hp3 by done. congruence. }
    rewrite H23. simpl.
    apply MultiAddEvalKeys_Ok_spec in H23 as (Hc23 & Ha23 & Hl23 & Hd23).
    apply MultiAddEvalKeys_Ok_spec.
    split; [congruence|split; [done|split; [done|]]].
    intros i Hi.
    destruct (Hd12 i Hi) as (x1 & x2 & H1 & H2 & Hp12 & Hs12).
    destruct (Hdr i Hi) as (z & x3 & Hz & H3 & Hp3 & Hsr).
    assert (z = add x1 x2) as -> by congruence.
    destruct (Hd23 i) as (x2' & x3' & H2' & H3' & Hp23 & Hs23); [lia|].
    assert (x2' = x2) as -> by congruence.
    assert (x3' = x3) as -> by congruence.
    exists x1, (add x2 x3). split; [done|split; [done|]].
    rewrite GetParams_add by done.
    split; [done|]. rewrite Hsr. f_equal. apply add_assoc.
    + split; [done|]. rewrite (Hfm _ _ _ Hf1 H1), (Hfm _ _ _ Hf2 H2). done.
    + split; [done|]. rewrite (Hfm _ _ _ Hf2 H2), (Hfm _ _ _ Hf3 H3). done.
  - destruct (MultiAddEvalKeys ek2 ek3) as [ek23| |] eqn:H23; simpl; try done.
    intros Hr. apply MultiAddEvalKeys_Ok_spec in H23 as (Hc23 & Ha23 & Hl23 & Hd23).
    apply MultiAddEvalKeys_Ok_spec in Hr as (Hcr & Har & Hlr & Hdr).
    destruct (MultiAddEvalKeys_total ek1 ek2) as [ek12 H12].
    { intros i Hi.
      destruct (Hdr i Hi) as (x1 & z & H1 & Hz & Hp1 & _).
      destruct (Hd23 i) as (x2 & x3 & H2 & H3 & Hp23 & Hs23); [lia|].
      exists x1, x2. split; [done|split; [done|]].
      assert (z = add x2 x3) as -> by congruence.
      rewrite GetParams_add in Hp1 by done. done. }
    rewrite H12. simpl.
    apply MultiAddEvalKeys_Ok_spec in H12 as (Hc12 & Ha12 & Hl12 & Hd12).
    apply MultiAddEvalKeys_Ok_spec. rewrite Ha12.
    split; [congruence|split; [done|split; [done|]]].
    intros i Hi.
    destruct (Hd12 i Hi) as (x1 & x2 & H1 & H2 & Hp12 & Hs12).
    destruct (Hdr i Hi) as (x1' & z & H1' & Hz & Hp1 & Hsr).
    assert (x1' = x1) as -> by congruence.
    destruct (Hd23 i) as (x2' & x3 & H2' & H3 & Hp23 & Hs23); [lia|].
    assert (x2' = x2) as -> by congruence.
    assert (z = add x2 x3) as -> by congruence.
    exists (add x1 x2), x3. split; [done|split; [done|]].
    rewrite GetParams_add by done.
    split; [congruence|]. rewrite Hsr. f_equal. symmetry. apply add_assoc.
    + split; [done|]. rewrite (Hfm _ _ _ Hf1 H1), (Hfm _ _ _ Hf2 H2). done.
    + split; [done|]. rewrite (Hfm _ _ _ Hf2 H2), (Hfm _ _ _ Hf3 H3). done.
Qed.

(** ** MultiAddPubKeys *)

(** MultiAddPubKeys returns a key exactly when the first key has
    elements 0 and 1, the second has element 0 and the two [b] elements have
    the same ring parameters; the key returned has exactly two elements,
    [b1 + b2] and the first key's [a], in the first key's context.  The
    second key's [a] is never read. *)
Lemma MultiAddPubKeys_Ok_iff (publicKey1 publicKey2 r : PublicKey) :
  MultiAddPubKeys publicKey1 publicKey2 = Ok r
  ↔ ∃ b1 a b2,
      GetPublicElements publicKey1 !! 0%nat = Some b1
      ∧ GetPublicElements publicKey1 !! 1%nat = Some a
      ∧ GetPublicElements publicKey2 !! 0%nat = Some b2
      ∧ GetParams b1 = GetParams b2
      ∧ r = {| pk_context := pk_context publicKey1;
               GetPublicElements := [add b1 b2; a] |}.
Proof.
  unfold MultiAddPubKeys, at_index, Plus.
  destruct (GetPublicElements publicKey1 !! 1%nat) as [a|]; simpl;
    [|split; [done|by intros (?&?&?&_&?&_)]].
  destruct (GetPublicElements publicKey1 !! 0%nat) as [b1|]; simpl;
    [|split; [done|by intros (?&?&?&?&_)]].
  destruct (GetPublicElements publicKey2 !! 0%nat) as [b2|]; simpl;
    [|split; [done|by intros (?&?&?&_&_&?&_)]].
  destruct (decide (GetParams b1 = GetParams b2)) as [Hp|Hp]; simpl.
  - split.
    + intros Heq. injection Heq as <-. by exists b1, a, b2.
    + intros (b1' & a' & b2' & H1 & Ha & H2 & _ & ->). congruence.
  - split; [done|]. intros (b1' & a' & b2' & H1 & Ha & H2 & Hp' & _).
    congruence.
Qed.

(** X3. For public keys that have their elements, with [b] elements in one
    representation, summing three keys gives the same outcome whichever pair
    is summed first: the same key, or the same ParameterMismatch.  No
    agreement of the [a] elements is needed, the sum keeps the first. *)
Theorem MultiAddPubKeys_assoc `{!LatticeLaws} (p1 p2 p3 : PublicKey)
    (b1 a1 b2 a2 b3 : Element) (more1 more2 more3 : list Element) :
  GetPublicElements p1 = b1 :: a1 :: more1 →
  GetPublicElements p2 = b2 :: a2 :: more2 →
  GetPublicElements p3 = b3 :: more3 →
  GetFormat b1 = GetFormat b2 → GetFormat b2 = GetFormat b3 →
  (p12 ← MultiAddPubKeys p1 p2; MultiAddPubKeys p12 p3)
  = (p23 ← MultiAddPubKeys p2 p3; MultiAddPubKeys p1 p23).
Proof.
  intros H1 H2 H3 Hf12 Hf23. unfold MultiAddPubKeys.
  rewrite H1, H2, H3. simpl.
  destruct (decide (GetParams b1 = GetParams b2)) as [Hp12|Hp12];
    destruct (decide (GetParams b2 = GetParams b3)) as [Hp23|Hp23].
  - rewrite (Plus_same b1 b2), (Plus_same b2 b3) by done. simpl.
    rewrite (Plus_same (add b1 b2) b3)
      by (rewrite GetParams_add by done; congruence).
    rewrite (Plus_same b1 (add b2 b3)) by (by rewrite GetParams_add).
    simpl. do 2 f_equal. f_equal. by apply add_assoc.
  - rewrite (Plus_same b1 b2), (Plus_mismatch b2 b3) by done. simpl.
    rewrite (Plus_mismatch (add b1 b2) b3); [done|].
    rewrite GetParams_add by done. congruence.
  - rewrite (Plus_mismatch b1 b2), (Plus_same b2 b3) by done. simpl.
    rewrite (Plus_mismatch b1 (add b2 b3)); [done|].
    by rewrite GetParams_add.
  - by rewrite (Plus_mismatch b1 b2), (Plus_mismatch b2 b3).
Qed.

(** ** MultiAddEvalMultKeys *)

Lemma add_mult_digit_Ok (a1 a2 b1 b2 : list Element) (i : nat)
    (z : Element * Element) :
  add_mult_digit a1 a2 b1 b2 i = Ok z
  ↔ ∃ x1 x2 y1 y2,
      a1 !! i = Some x1 ∧ a2 !! i = Some x2
      ∧ b1 !! i = Some y1 ∧ b2 !! i = Some y2
      ∧ GetParams x1 = GetParams x2 ∧ GetParams y1 = GetParams y2
      ∧ z = (add x1 x2, add y1 y2).
Proof.
  unfold add_mult_digit, at_index, Plus.
  destruct (a1 !! i) as [x1|]; simpl;
    [|split; [done|by intros (?&?&?&?&?&_)]].
  destruct (a2 !! i) as [x2|]; simpl;
    [|split; [done|by intros (?&?&?&?&_&?&_)]].
  destruct (decide (GetParams x1 = GetParams x2)) as [Hpa|Hpa]; simpl;
    [|split; [done|intros (?&?&?&?&?&?&_&_&?&_); congruence]].
  destruct (b1 !! i) as [y1|]; simpl;
    [|split; [done|by intros (?&?&?&?&_&_&?&_)]].
  destruct (b2 !! i) as [y2|]; simpl;
    [|split; [done|by intros (?&?&?&?&_&_&_&?&_)]].
  destruct (decide (GetParams y1 = GetParams y2)) as [Hpb|Hpb]; simpl.
  - split.
    + intros Heq. injection Heq as <-. by exists x1, x2, y1, y2.
    + intros (?&?&?&?&?&?&?&?&_&_&->). congruence.
  - split; [done|]. intros (?&?&?&?&?&?&?&?&_&?&_). congruence.
Qed.

Lemma MultiAddEvalMultKeys_Ok_spec (evalKey1 evalKey2 r : EvalKey) :
  MultiAddEvalMultKeys evalKey1 evalKey2 = Ok r
  ↔ ek_context r = ek_context evalKey1
    ∧ length (GetAVector r) = length (GetAVector evalKey1)
    ∧ length (GetBVector r) = length (GetAVector evalKey1)
    ∧ ∀ i, (i < length (GetAVector evalKey1))%nat →
        ∃ x1 x2 y1 y2,
          GetAVector evalKey1 !! i = Some x1
          ∧ GetAVector evalKey2 !! i = Some x2
          ∧ GetBVector evalKey1 !! i = Some y1
          ∧ GetBVector evalKey2 !! i = Some y2
          ∧ GetParams x1 = GetParams x2 ∧ GetParams y1 = GetParams y2
          ∧ GetAVector r !! i = Some (add x1 x2)
          ∧ GetBVector r !! i = Some (add y1 y2).
Proof.
  unfold MultiAddEvalMultKeys. split.
  - destruct (mapM_outcome _ _) as [ab| |] eqn:Hab; simpl; try done.
    intros Heq. injection Heq as <-. simpl.
    apply mapM_outcome_seq_Ok in Hab as [Hlen Hab].
    rewrite !length_fmap.
    split; [done|split; [done|split; [done|]]].
    intros i Hi. destruct (Hab i Hi) as (z & Hz & Hdig).
    apply add_mult_digit_Ok in Hdig
      as (x1 & x2 & y1 & y2 & H1 & H2 & H3 & H4 & Hpa & Hpb & ->).
    exists x1, x2, y1, y2. rewrite !list_lookup_fmap, Hz. done.
  - intros (Hcc & Hla & Hlb & Hdig).
    assert (Hab : mapM_outcome
                    (add_mult_digit (GetAVector evalKey1) (GetAVector evalKey2)
                       (GetBVector evalKey1) (GetBVector evalKey2))
                    (seq 0 (length (GetAVector evalKey1)))
                  = Ok (zip (GetAVector r) (GetBVector r))).
    { apply mapM_outcome_seq_Ok. split.
      - rewrite length_zip. lia.
      - intros i Hi.
        destruct (Hdig i Hi)
          as (x1 & x2 & y1 & y2 & H1 & H2 & H3 & H4 & Hpa & Hpb & Ha & Hb).
        exists (add x1 x2, add y1 y2). split.
        + rewrite lookup_zip_with, Ha. simpl. by rewrite Hb.
        + apply add_mult_digit_Ok. by exists x1, x2, y1, y2. }
    rewrite Hab. simpl.
    rewrite fst_zip, snd_zip by lia.
    destruct r as [cc a b]. simpl in *. by subst.
Qed.

(** X4. MultiAddEvalMultKeys returns a key exactly when the second key's
    A-vector and both B-vectors reach the length of the first key's A-vector
    and the summed entries have the same ring parameters; the key returned
    has the first key's context and A- and B-vectors of that one length,
    made of the sums [a1[i] + a2[i]] and [b1[i] + b2[i]]. *)
Theorem MultiAddEvalMultKeys_Ok_iff (evalKey1 evalKey2 r : EvalKey) :
  MultiAddEvalMultKeys evalKey1 evalKey2 = Ok r
  ↔ ek_context r = ek_context evalKey1
    ∧ length (GetAVector r) = length (GetAVector evalKey1)
    ∧ length (GetBVector r) = length (GetAVector evalKey1)
    ∧ ∀ i, (i < length (GetAVector evalKey1))%nat →
        ∃ x1 x2 y1 y2,
          GetAVector evalKey1 !! i = Some x1
          ∧ GetAVector evalKey2 !! i = Some x2
          ∧ GetBVector evalKey1 !! i = Some y1
          ∧ GetBVector evalKey2 !! i = Some y2
          ∧ GetParams x1 = GetParams x2 ∧ GetParams y1 = GetParams y2
          ∧ GetAVector r !! i = Some (add x1 x2)
          ∧ GetBVector r !! i = Some (add y1 y2).
Proof. exact (MultiAddEvalMultKeys_Ok_spec evalKey1 evalKey2 r). Qed.

(** X5. For evaluation keys with A-vectors of the same length and entries in
    one representation per vector pair, MultiAddEvalMultKeys gives the same
    vectors, or the same failure, in either order. *)
Theorem MultiAddEvalMultKeys_comm `{!LatticeLaws} (ek1 ek2 : EvalKey) :
  length (GetAVector ek1) = length (GetAVector ek2) →
  (∀ i x1 x2, GetAVector ek1 !! i = Some x1 → GetAVector ek2 !! i = Some x2 →
              GetFormat x1 = GetFormat x2) →
  (∀ i y1 y2, GetBVector ek1 !! i = Some y1 → GetBVector ek2 !! i = Some y2 →
              GetFormat y1 = GetFormat y2) →
  (r ← MultiAddEvalMultKeys ek1 ek2; Ok (GetAVector r, GetBVector r))
  = (r ← MultiAddEvalMultKeys ek2 ek1; Ok (GetAVector r, GetBVector r)).
Proof.
  intros Hlen Hfa Hfb. unfold MultiAddEvalMultKeys. rewrite <- Hlen.
  assert (Hab : mapM_outcome
                  (add_mult_digit (GetAVector ek1) (GetAVector ek2)
                     (GetBVector ek1) (GetBVector ek2))
                  (seq 0 (length (GetAVector ek1)))
                = mapM_outcome
                    (add_mult_digit (GetAVector ek2) (GetAVector ek1)
                       (GetBVector ek2) (GetBVector ek1))
                    (seq 0 (length (GetAVector ek1)))).
  { apply mapM_outcome_ext, Forall_forall. intros i _.
    unfold add_mult_digit, at_index.
    destruct (GetAVector ek1 !! i) as [x1|] eqn:E1;
      destruct (GetAVector ek2 !! i) as [x2|] eqn:E2; simpl; try done.
    rewrite (Plus_comm x1 x2) by (by eapply Hfa).
    destruct (Plus x2 x1) as [a| |]; simpl; try done.
    destruct (GetBVector ek1 !! i) as [y1|] eqn:E3;
      destruct (GetBVector ek2 !! i) as [y2|] eqn:E4; simpl; try done.
    by rewrite (Plus_comm y1 y2) by (by eapply Hfb). }
  rewrite Hab.
  match goal with
  | |- context [mapM_outcome ?f ?l] => by destruct (mapM_outcome f l)
  end.
Qed.

(** ** MultiMultEvalKey *)

Lemma mapM_M_cons {A B} (f : A → M B) x l :
  mapM_M f (x :: l) = f x ≫= λ y, mapM_M f l ≫= λ ys, mret (y :: ys).
Proof. reflexivity. Qed.

Lemma bind_M_Ok_inv {A B} (m : M A) (f : A → M B) r z :
  (m ≫= f) r = Ok z → ∃ a r', m r = Ok (a, r') ∧ f a r' = Ok z.
Proof.
  unfold mbind, M_bind. destruct (m r) as [[a r']| |]; [|done|done].
  intros H. by exists a, r'.
Qed.

Lemma length_noise_pairs sd p n r : length (noise_pairs sd p n r).1 = n.
Proof. revert r. induction n as [|n IH]; intros r; simpl; [done|]. by rewrite IH. Qed.

(** One digit, read backwards: the two draws come first, whatever the key
    holds at the index. *)
Lemma mult_digit_Ok_inv cp a0 b0 s i r z r' :
  mult_digit cp a0 b0 s i r = Ok (z, r') →
  let sd := dgg_std (GetDiscreteGaussianGenerator cp) in
  let d1 := Element_dgg sd (GetElementParams cp) EVALUATION r in
  let d2 := Element_dgg sd (GetElementParams cp) EVALUATION d1.2 in
  r' = d2.2 ∧ is_Some (a0 !! i) ∧ is_Some (b0 !! i).
Proof.
  unfold mult_digit. rewrite !bind_M_draw. unfold lift, at_index.
  destruct (a0 !! i) as [x|]; simpl; [|done].
  destruct (Times x s) as [xs| |]; simpl; try done.
  destruct (Plus xs _) as [a| |]; simpl; try done.
  destruct (b0 !! i) as [y|]; simpl; [|done].
  destruct (Times y s) as [ys| |]; simpl; try done.
  destruct (Plus ys _) as [b| |]; simpl; try done.
  intros Heq. injection Heq as <- <-. eauto.
Qed.

Lemma mult_loop_Ok_inv cp a0 b0 s m j r ab r' :
  mapM_M (mult_digit cp a0 b0 s) (seq j m) r = Ok (ab, r') →
  length ab = m
  ∧ r' = (noise_pairs (dgg_std (GetDiscreteGaussianGenerator cp))
            (GetElementParams cp) m r).2
  ∧ ∀ i, (i < m)%nat → is_Some (b0 !! (j + i)%nat).
Proof.
  revert j r ab r'. induction m as [|m IH]; intros j r ab r' Hrun.
  - injection Hrun as <- <-. split; [done|split; [done|]]. lia.
  - change (seq j (S m)) with (j :: seq (S j) m) in Hrun.
    rewrite mapM_M_cons in Hrun.
    apply bind_M_Ok_inv in Hrun as (z & r1 & Hdig & Hrun).
    apply bind_M_Ok_inv in Hrun as (ab' & r2 & Hrest & Hret).
    injection Hret as <- <-.
    apply mult_digit_Ok_inv in Hdig as (-> & _ & Hb).
    apply IH in Hrest as (Hlen & -> & Hbs).
    split; [simpl; by rewrite Hlen|split; [done|]].
    intros [|i] Hi.
    + by rewrite Nat.add_0_r.
    + replace (j + S i)%nat with (S j + i)%nat by lia. apply Hbs. lia.
Qed.

(** X6. Whenever MultiMultEvalKey returns a key, the key has the context of
    the input evaluation key and A- and B-vectors of the length of the input
    A-vector, the input B-vector is at least that long, and the generator has
    advanced by exactly two Gaussian draws per digit, whatever the secret and
    the key hold. *)
Theorem MultiMultEvalKey_Ok_shape (privateKey : PrivateKey)
    (evalKey r : EvalKey) (rng rng' : Rng) :
  MultiMultEvalKey privateKey evalKey rng = Ok (r, rng') →
  let cp := GetCryptoParameters (ek_context evalKey) in
  ek_context r = ek_context evalKey
  ∧ length (GetAVector r) = length (GetAVector evalKey)
  ∧ length (GetBVector r) = length (GetAVector evalKey)
  ∧ (length (GetAVector evalKey) ≤ length (GetBVector evalKey))%nat
  ∧ rng' = (noise_pairs (dgg_std (GetDiscreteGaussianGenerator cp))
              (GetElementParams cp) (length (GetAVector evalKey)) rng).2.
Proof.
  intros Hrun cp. unfold MultiMultEvalKey in Hrun. fold cp in Hrun.
  apply bind_M_Ok_inv in Hrun as (ab & r1 & Hloop & Hret).
  injection Hret as <- <-. simpl.
  apply mult_loop_Ok_inv in Hloop as (Hlen & -> & Hb).
  rewrite !length_fmap.
  split; [done|split; [done|split; [done|split; [|done]]]].
  destruct (length (GetAVector evalKey)) as [|n] eqn:Hn; [lia|].
  destruct (Hb n) as [y Hy]; [lia|].
  apply lookup_lt_Some in Hy. simpl in Hy. lia.
Qed.

Lemma noise_pairs_shaped `{!LatticeLaws} sd p n r :
  Forall (λ e, shaped p EVALUATION e.1 ∧ shaped p EVALUATION e.2)
         (noise_pairs sd p n r).1.
Proof.
  revert r. induction n as [|n IH]; intros r; simpl; constructor; [|apply IH].
  simpl. split; split;
    [apply GetParams_dgg|apply GetFormat_dgg
    |apply GetParams_dgg|apply GetFormat_dgg].
Qed.

(** The loop from digit [j] on, over well-formed vectors. *)
Lemma mult_loop_closed `{!LatticeLaws} cp a0 b0 s :
  GetParams s = GetElementParams cp →
  Forall (λ x, GetParams x = GetElementParams cp) a0 →
  Forall (λ x, GetParams x = GetElementParams cp) b0 →
  ∀ m j r,
    (j + m ≤ length a0)%nat → (j + m ≤ length b0)%nat →
    let noise := noise_pairs (dgg_std (GetDiscreteGaussianGenerator cp))
                   (GetElementParams cp) m r in
    mapM_M (mult_digit cp a0 b0 s) (seq j m) r
    = Ok (zip_with (λ xy e,
             (add (mul xy.1 s) (smul (GetNoiseScale cp) e.1),
              add (mul xy.2 s) (smul (GetNoiseScale cp) e.2)))
            (zip (take m (drop j a0)) (take m (drop j b0))) noise.1,
          noise.2).
Proof.
  intros Hs Ha Hb. induction m as [|m IH]; intros j r Hja Hjb noise.
  - reflexivity.
  - change (seq j (S m)) with (j :: seq (S j) m). rewrite mapM_M_cons.
    destruct (lookup_lt_is_Some_2 a0 j) as [x Hx]; [lia|].
    destruct (lookup_lt_is_Some_2 b0 j) as [y Hy]; [lia|].
    assert (Hxp : GetParams x = GetElementParams cp)
      by (eapply Forall_lookup_1 in Ha; [|exact Hx]; done).
    assert (Hyp : GetParams y = GetElementParams cp)
      by (eapply Forall_lookup_1 in Hb; [|exact Hy]; done).
    set (sd := dgg_std (GetDiscreteGaussianGenerator cp)) in *.
    set (d1 := Element_dgg sd (GetElementParams cp) EVALUATION r).
    set (d2 := Element_dgg sd (GetElementParams cp) EVALUATION d1.2).
    assert (Hdig : mult_digit cp a0 b0 s j r
                   = Ok ((add (mul x s) (smul (GetNoiseScale cp) d1.1),
                          add (mul y s) (smul (GetNoiseScale cp) d2.1)),
                         d2.2)).
    { unfold mult_digit. rewrite !bind_M_draw. fold sd d1 d2.
      rewrite (at_index_Some _ _ _ Hx), bind_Ok.
      rewrite (Times_same x s), bind_Ok by congruence.
      rewrite Plus_same, bind_Ok
        by (rewrite GetParams_mul, GetParams_smul by congruence;
            subst d1; rewrite GetParams_dgg; done).
      rewrite (at_index_Some _ _ _ Hy), bind_Ok.
      rewrite (Times_same y s), bind_Ok by congruence.
      rewrite Plus_same, bind_Ok
        by (rewrite GetParams_mul, GetParams_smul by congruence;
            subst d2; rewrite GetParams_dgg; done).
      reflexivity. }
    rewrite (bind_M_Ok _ _ _ _ _ Hdig).
    rewrite (bind_M_Ok _ _ _ _ _ (IH (S j) d2.2 ltac:(lia) ltac:(lia))).
    subst noise. cbn [noise_pairs]. fold sd d1 d2.
    rewrite (drop_S _ _ _ Hx), (drop_S _ _ _ Hy). reflexivity.
Qed.

Lemma unzip_digits {A B C D E} (F : A → C → D) (G : B → C → E)
    (a : list A) (bs : list B) (es : list C) :
  length es = length a → length bs = length a →
  (zip_with (λ (xy : A * B) e, (F xy.1 e, G xy.2 e)) (zip a bs) es).*1
  = zip_with F a es
  ∧ (zip_with (λ (xy : A * B) e, (F xy.1 e, G xy.2 e)) (zip a bs) es).*2
    = zip_with G bs es.
Proof.
  revert bs es. induction a as [|x a IH]; intros bs es Hes Hbs.
  - destruct es; [|done]. by destruct bs.
  - destruct es as [|e es]; [done|]. destruct bs as [|y bs]; [done|].
    simpl in Hes, Hbs. destruct (IH bs es) as [IH1 IH2]; [lia|lia|].
    split; cbn; f_equal; assumption.
Qed.

Lemma MultiMultEvalKey_closed `{!LatticeLaws} (privateKey : PrivateKey)
    (evalKey : EvalKey) (rng : Rng) :
  GetParams (GetPrivateElement privateKey)
  = GetElementParams (GetCryptoParameters (ek_context evalKey)) →
  Forall (λ x, GetParams x
               = GetElementParams (GetCryptoParameters (ek_context evalKey)))
         (GetAVector evalKey ++ GetBVector evalKey) →
  (length (GetAVector evalKey) ≤ length (GetBVector evalKey))%nat →
  let cp := GetCryptoParameters (ek_context evalKey) in
  let s := GetPrivateElement privateKey in
  let n := length (GetAVector evalKey) in
  let noise := noise_pairs (dgg_std (GetDiscreteGaussianGenerator cp))
                 (GetElementParams cp) n rng in
  MultiMultEvalKey privateKey evalKey rng
  = Ok ({| ek_context := ek_context evalKey;
           GetAVector :=
             zip_with (λ x e, add (mul x s) (smul (GetNoiseScale cp) e.1))
               (GetAVector evalKey) noise.1;
           GetBVector :=
             zip_with (λ y e, add (mul y s) (smul (GetNoiseScale cp) e.2))
               (take n (GetBVector evalKey)) noise.1 |},
        noise.2).
Proof.
  intros Hs Hall Hlen cp s n noise.
  apply Forall_app in Hall as [Ha Hb].
  unfold MultiMultEvalKey. fold cp s n.
  pose proof (mult_loop_closed cp (GetAVector evalKey) (GetBVector evalKey) s
                Hs Ha Hb n 0 rng ltac:(lia) ltac:(lia)) as Hloop.
  rewrite (bind_M_Ok _ _ _ _ _ Hloop). fold noise.
  rewrite !drop_0. replace (take n (GetAVector evalKey))
    with (GetAVector evalKey) by (symmetry; apply firstn_all).
  assert (Hln : length noise.1 = n) by apply length_noise_pairs.
  assert (Hlb : length (take n (GetBVector evalKey)) = n)
    by (rewrite length_take; lia).
  destruct (unzip_digits
              (λ x (e : Element * Element),
                 add (mul x s) (smul (GetNoiseScale cp) e.1))
              (λ y (e : Element * Element),
                 add (mul y s) (smul (GetNoiseScale cp) e.2))
              (GetAVector evalKey) (take n (GetBVector evalKey)) noise.1
              Hln Hlb) as [Hfst Hsnd].
  unfold mret, M_ret. by rewrite Hfst, Hsnd.
Qed.

(** X7. For a secret and an evaluation key over the parameters of the key's
    context, with a B-vector at least as long as the A-vector,
    MultiMultEvalKey returns the key with entries [a[i]*s + ns*e1_i] and
    [b[i]*s + ns*e2_i], where [(e1_i, e2_i)] is the i-th pair of successive
    Gaussian draws: the noise and the final generator state depend only on
    the parameters, the number of digits and the initial state. *)
Theorem MultiMultEvalKey_closed_form `{!LatticeLaws} (privateKey : PrivateKey)
    (evalKey : EvalKey) (rng : Rng) :
  GetParams (GetPrivateElement privateKey)
  = GetElementParams (GetCryptoParameters (ek_context evalKey)) →
  Forall (λ x, GetParams x
               = GetElementParams (GetCryptoParameters (ek_context evalKey)))
         (GetAVector evalKey ++ GetBVector evalKey) →
  (length (GetAVector evalKey) ≤ length (GetBVector evalKey))%nat →
  let cp := GetCryptoParameters (ek_context evalKey) in
  let s := GetPrivateElement privateKey in
  let n := length (GetAVector evalKey) in
  let noise := noise_pairs (dgg_std (GetDiscreteGaussianGenerator cp))
                 (GetElementParams cp) n rng in
  MultiMultEvalKey privateKey evalKey rng
  = Ok ({| ek_context := ek_context evalKey;
           GetAVector :=
             zip_with (λ x e, add (mul x s) (smul (GetNoiseScale cp) e.1))
               (GetAVector evalKey) noise.1;
           GetBVector :=
             zip_with (λ y e, add (mul y s) (smul (GetNoiseScale cp) e.2))
               (take n (GetBVector evalKey)) noise.1 |},
        noise.2).
Proof. exact (MultiMultEvalKey_closed privateKey evalKey rng). Qed.

(** ** Shares of a relinearisation key add up *)

Lemma MultiAddEvalMultKeys_total (evalKey1 evalKey2 : EvalKey) :
  (∀ i, (i < length (GetAVector evalKey1))%nat →
     ∃ x1 x2 y1 y2,
       GetAVector evalKey1 !! i = Some x1 ∧ GetAVector evalKey2 !! i = Some x2
       ∧ GetBVector evalKey1 !! i = Some y1
       ∧ GetBVector evalKey2 !! i = Some y2
       ∧ GetParams x1 = GetParams x2 ∧ GetParams y1 = GetParams y2) →
  ∃ r, MultiAddEvalMultKeys evalKey1 evalKey2 = Ok r.
Proof.
  intros Hdig. unfold MultiAddEvalMultKeys.
  destruct (mapM_outcome_total
              (add_mult_digit (GetAVector evalKey1) (GetAVector evalKey2)
                 (GetBVector evalKey1) (GetBVector evalKey2))
              (seq 0 (length (GetAVector evalKey1)))) as [ab Hab].
  - apply Forall_forall. intros i Hi. apply elem_of_seq in Hi.
    destruct (Hdig i) as (x1 & x2 & y1 & y2 & H1 & H2 & H3 & H4 & Hpa & Hpb);
      [lia|].
    exists (add x1 x2, add y1 y2). apply add_mult_digit_Ok.
    by exists x1, x2, y1, y2.
  - rewrite Hab. simpl. eauto.
Qed.

Section RingAlgebra.
Context `{!LatticeLaws}.

Lemma shaped_compatible p f x y : shaped p f x → shaped p f y → compatible x y.
Proof. intros [??] [??]. split; congruence. Qed.

Lemma shaped_add p f x y : shaped p f x → shaped p f y → shaped p f (add x y).
Proof.
  intros Hx Hy. pose proof (shaped_compatible _ _ _ _ Hx Hy) as Hc.
  destruct Hx as [Hp Hf]. split.
  - rewrite GetParams_add; [done|apply Hc].
  - by rewrite GetFormat_add.
Qed.

Lemma shaped_mul p f x y : shaped p f x → shaped p f y → shaped p f (mul x y).
Proof.
  intros Hx Hy. pose proof (shaped_compatible _ _ _ _ Hx Hy) as Hc.
  destruct Hx as [Hp Hf]. split.
  - rewrite GetParams_mul; [done|apply Hc].
  - by rewrite GetFormat_mul.
Qed.

Lemma shaped_smul p f n x : shaped p f x → shaped p f (smul n x).
Proof. intros [Hp Hf]. split; by rewrite ?GetParams_smul, ?GetFormat_smul. Qed.

(** [(p + q) + (u + v) = (p + u) + (q + v)] on elements of one shape. *)
Lemma add_interchange ps f p q u v :
  shaped ps f p → shaped ps f q → shaped ps f u → shaped ps f v →
  add (add p q) (add u v) = add (add p u) (add q v).
Proof.
  intros Hp Hq Hu Hv.
  pose proof (shaped_add _ _ _ _ Hu Hv) as Huv.
  pose proof (shaped_add _ _ _ _ Hq Hv) as Hqv.
  rewrite (add_assoc p q (add u v))
    by eauto using shaped_compatible.
  rewrite <- (add_assoc q u v) by eauto using shaped_compatible.
  rewrite (add_comm q u) by eauto using shaped_compatible.
  rewrite (add_assoc u q v) by eauto using shaped_compatible.
  rewrite <- (add_assoc p u (add q v)) by eauto using shaped_compatible.
  reflexivity.
Qed.

(** The sum of the two parties' entries is the entry for the sum of the
    secrets, with the sum of the two noises. *)
Lemma share_entries_add `{!RingLaws} ps f ns x s1 s2 e e' :
  shaped ps f x → shaped ps f s1 → shaped ps f s2 →
  shaped ps f e → shaped ps f e' →
  add (add (mul x s1) (smul ns e)) (add (mul x s2) (smul ns e'))
  = add (mul x (add s1 s2)) (smul ns (add e e')).
Proof.
  intros Hx H1 H2 He He'.
  rewrite (add_interchange ps f)
    by eauto using shaped_mul, shaped_smul.
  rewrite mul_add_distr_r by eauto using shaped_compatible.
  rewrite smul_add_distr by eauto using shaped_compatible.
  reflexivity.
Qed.

End RingAlgebra.

(** X8. Two parties rerandomise one evaluation key with their secrets
    [s1] and [s2], one after the other, and the results are summed with
    MultiAddEvalMultKeys.  For a key and secrets over the context's
    parameters in evaluation format, all three calls return, and the sum has
    the entries [a[i]*(s1+s2) + ns*(e_i + e'_i)] and
    [b[i]*(s1+s2) + ns*(e_i + e'_i)]: the entries MultiMultEvalKey gives for
    the secret [s1 + s2], with the sum of the two parties' noises. *)
Theorem rerandomised_shares_add `{!LatticeLaws} `{!RingLaws}
    (sk1 sk2 : PrivateKey) (evalKey : EvalKey) (rng : Rng) :
  Forall (shaped (GetElementParams (GetCryptoParameters (ek_context evalKey)))
                 EVALUATION)
         (GetPrivateElement sk1 :: GetPrivateElement sk2
          :: GetAVector evalKey ++ GetBVector evalKey) →
  (length (GetAVector evalKey) ≤ length (GetBVector evalKey))%nat →
  let cp := GetCryptoParameters (ek_context evalKey) in
  let ns := GetNoiseScale cp in
  let s := add (GetPrivateElement sk1) (GetPrivateElement sk2) in
  let n := length (GetAVector evalKey) in
  let noise1 := noise_pairs (dgg_std (GetDiscreteGaussianGenerator cp))
                  (GetElementParams cp) n rng in
  let noise2 := noise_pairs (dgg_std (GetDiscreteGaussianGenerator cp))
                  (GetElementParams cp) n noise1.2 in
  ∃ k1 k2 sum,
    MultiMultEvalKey sk1 evalKey rng = Ok (k1, noise1.2)
    ∧ MultiMultEvalKey sk2 evalKey noise1.2 = Ok (k2, noise2.2)
    ∧ MultiAddEvalMultKeys k1 k2 = Ok sum
    ∧ length (GetAVector sum) = n ∧ length (GetBVector sum) = n
    ∧ ∀ i x y e e',
        GetAVector evalKey !! i = Some x → GetBVector evalKey !! i = Some y →
        noise1.1 !! i = Some e → noise2.1 !! i = Some e' →
        GetAVector sum !! i = Some (add (mul x s) (smul ns (add e.1 e'.1)))
        ∧ GetBVector sum !! i = Some (add (mul y s) (smul ns (add e.2 e'.2))).
Proof.
  intros Hall Hlen cp ns s n noise1 noise2.
  set (ep := GetElementParams cp) in *.
  apply Forall_cons in Hall as [Hs1 Hall]. apply Forall_cons in Hall as [Hs2 Hall].
  assert (Hpar : Forall (λ x, GetParams x = ep)
                   (GetAVector evalKey ++ GetBVector evalKey))
    by (eapply Forall_impl; [exact Hall|]; by intros x [??]).
  apply Forall_app in Hall as [Ha Hb].
  pose proof (MultiMultEvalKey_closed sk1 evalKey rng
                (proj1 Hs1) Hpar Hlen) as H1.
  pose proof (MultiMultEvalKey_closed sk2 evalKey noise1.2
                (proj1 Hs2) Hpar Hlen) as H2.
  cbv zeta in H1, H2. fold cp ns n ep in H1, H2. fold noise1 in H1, H2.
  fold noise2 in H2.
  set (k1 := {| ek_context := ek_context evalKey;
                GetAVector := zip_with _ (GetAVector evalKey) noise1.1;
                GetBVector := _ |}) in H1.
  set (k2 := {| ek_context := ek_context evalKey;
                GetAVector := zip_with _ (GetAVector evalKey) noise2.1;
                GetBVector := _ |}) in H2.
  assert (Hn1 : length noise1.1 = n) by apply length_noise_pairs.
  assert (Hn2 : length noise2.1 = n) by apply length_noise_pairs.
  pose proof (noise_pairs_shaped (dgg_std (GetDiscreteGaussianGenerator cp))
                ep n rng) as Hsh1.
  pose proof (noise_pairs_shaped (dgg_std (GetDiscreteGaussianGenerator cp))
                ep n noise1.2) as Hsh2.
  fold noise1 in Hsh1. fold noise2 in Hsh2.
  (* the entries of the two rerandomised keys *)
  assert (Hent : ∀ i, (i < n)%nat →
            ∃ x y e e',
              GetAVector evalKey !! i = Some x
              ∧ GetBVector evalKey !! i = Some y
              ∧ noise1.1 !! i = Some e ∧ noise2.1 !! i = Some e'
              ∧ GetAVector k1 !! i = Some (add (mul x (GetPrivateElement sk1))
                                             (smul ns e.1))
              ∧ GetBVector k1 !! i = Some (add (mul y (GetPrivateElement sk1))
                                             (smul ns e.2))
              ∧ GetAVector k2 !! i = Some (add (mul x (GetPrivateElement sk2))
                                             (smul ns e'.1))
              ∧ GetBVector k2 !! i = Some (add (mul y (GetPrivateElement sk2))
                                             (smul ns e'.2))).
  { intros i Hi.
    destruct (lookup_lt_is_Some_2 (GetAVector evalKey) i) as [x Hx]; [done|].
    destruct (lookup_lt_is_Some_2 (GetBVector evalKey) i) as [y Hy]; [lia|].
    destruct (lookup_lt_is_Some_2 noise1.1 i) as [e He]; [lia|].
    destruct (lookup_lt_is_Some_2 noise2.1 i) as [e' He']; [lia|].
    exists x, y, e, e'. subst k1 k2. simpl.
    rewrite !lookup_zip_with, !lookup_take_lt by done.
    by rewrite Hx, Hy, He, He'. }
  assert (Hshaped : ∀ i x y e e',
            GetAVector evalKey !! i = Some x →
            GetBVector evalKey !! i = Some y →
            noise1.1 !! i = Some e → noise2.1 !! i = Some e' →
            shaped ep EVALUATION x ∧ shaped ep EVALUATION y
            ∧ shaped ep EVALUATION e.1 ∧ shaped ep EVALUATION e.2
            ∧ shaped ep EVALUATION e'.1 ∧ shaped ep EVALUATION e'.2).
  { intros i x y e e' Hx Hy He He'.
    eapply Forall_lookup_1 in Ha; [|exact Hx].
    eapply Forall_lookup_1 in Hb; [|exact Hy].
    eapply Forall_lookup_1 in Hsh1; [|exact He].
    eapply Forall_lookup_1 in Hsh2; [|exact He'].
    destruct Hsh1, Hsh2. done. }
  destruct (MultiAddEvalMultKeys_total k1 k2) as [sum Hsum].
  { intros i Hi.
    assert (Hi' : (i < n)%nat).
    { subst k1. simpl in Hi. rewrite length_zip_with in Hi. lia. }
    destruct (Hent i Hi')
      as (x & y & e & e' & Hx & Hy & He & He' & HA1 & HB1 & HA2 & HB2).
    destruct (Hshaped i x y e e' Hx Hy He He')
      as (Sx & Sy & Se1 & Se2 & Se1' & Se2').
    eexists _, _, _, _.
    split; [exact HA1|split; [exact HA2|split; [exact HB1|split; [exact HB2|]]]].
    split.
    - transitivity ep;
        [|symmetry]; eapply shaped_add; eauto using shaped_mul, shaped_smul.
    - transitivity ep;
        [|symmetry]; eapply shaped_add; eauto using shaped_mul, shaped_smul. }
  exists k1, k2, sum. split; [exact H1|split; [exact H2|split; [exact Hsum|]]].
  apply MultiAddEvalMultKeys_Ok_spec in Hsum as (_ & Hla & Hlb & Hdig).
  assert (Hk1 : length (GetAVector k1) = n).
  { subst k1. simpl. rewrite length_zip_with. lia. }
  rewrite Hk1 in Hla, Hlb, Hdig.
  split; [done|split; [done|]].
  intros i x y e e' Hx Hy He He'.
  assert (Hi : (i < n)%nat) by (by apply lookup_lt_Some in Hx).
  destruct (Hent i Hi)
    as (x0 & y0 & e0 & e0' & Hx0 & Hy0 & He0 & He0' & HA1 & HB1 & HA2 & HB2).
  assert (x0 = x) as -> by congruence. assert (y0 = y) as -> by congruence.
  assert (e0 = e) as -> by congruence. assert (e0' = e') as -> by congruence.
  destruct (Hshaped i x y e e' Hx Hy He He')
    as (Sx & Sy & Se1 & Se2 & Se1' & Se2').
  destruct (Hdig i Hi)
    as (a1 & a2 & b1 & b2 & Ha1 & Ha2 & Hb1 & Hb2 & _ & _ & HAs & HBs).
  rewrite HAs, HBs.
  assert (a1 = add (mul x (GetPrivateElement sk1)) (smul ns e.1)) as ->
    by congruence.
  assert (a2 = add (mul x (GetPrivateElement sk2)) (smul ns e'.1)) as ->
    by congruence.
  assert (b1 = add (mul y (GetPrivateElement sk1)) (smul ns e.2)) as ->
    by congruence.
  assert (b2 = add (mul y (GetPrivateElement sk2)) (smul ns e'.2)) as ->
    by congruence.
  split; f_equal; by apply (share_entries_add ep EVALUATION).
Qed.

(** ** The automorphism-key loop, read backwards *)

Lemma lift_Ok_inv {A} (o : outcome A) r a r' :
  lift o r = Ok (a, r') → o = Ok a ∧ r' = r.
Proof. unfold lift. destruct o; [|done|done]. intros H. by injection H as <- <-. Qed.

Lemma automorphism_key_step_Ok_inv privateKey (evalKeyMap acc acc' : gmap Z EvalKey)
    k r r' :
  automorphism_key_step privateKey evalKeyMap acc k r = Ok (acc', r') →
  is_Some (evalKeyMap !! k) ∧ ∃ v, acc' = <[k := v]> acc.
Proof.
  unfold automorphism_key_step. intros Hrun.
  apply bind_M_Ok_inv in Hrun as (inv & r1 & _ & Hrun).
  apply bind_M_Ok_inv in Hrun as (ek & r2 & Hek & Hrun).
  apply lift_Ok_inv in Hek as [Hek _].
  apply bind_M_Ok_inv in Hrun as (v & r3 & _ & Hret).
  injection Hret as <- <-. split; [|by exists v].
  unfold find_second in Hek. destruct (evalKeyMap !! k); [eauto|done].
Qed.

Lemma automorphism_loop_Ok_inv privateKey (evalKeyMap : gmap Z EvalKey) l :
  ∀ acc r res r',
    foldl_M (automorphism_key_step privateKey evalKeyMap) acc l r
    = Ok (res, r') →
    Forall (λ k, is_Some (evalKeyMap !! k)) l
    ∧ dom res = dom acc ∪ list_to_set l.
Proof.
  induction l as [|k l IH]; intros acc r res r' Hrun.
  - injection Hrun as <- <-. split; [constructor|].
    by rewrite list_to_set_nil, (right_id_L ∅ (∪)).
  - rewrite foldl_M_cons in Hrun.
    apply bind_M_Ok_inv in Hrun as (acc' & r1 & Hstep & Hrun).
    apply automorphism_key_step_Ok_inv in Hstep as [Hk [v ->]].
    apply IH in Hrun as [Hall Hdom]. split; [by constructor|].
    rewrite Hdom, dom_insert_L, list_to_set_cons.
    rewrite (comm_L (∪) {[k]} (dom acc)). by rewrite (assoc_L (∪)).
Qed.

Lemma size_list_to_set_le (l : list Z) :
  (size (list_to_set l : gset Z) ≤ length l)%nat.
Proof.
  induction l as [|x l IH]; [by rewrite list_to_set_nil, size_empty|].
  rewrite list_to_set_cons, size_union_alt, size_singleton. simpl.
  pose proof (subseteq_size (list_to_set l ∖ {[x]}) (list_to_set l : gset Z)
                ltac:(apply subseteq_difference_l; done)).
  lia.
Qed.

Lemma MultiEvalAutomorphismKeyGen_Ok_dom (privateKey : PrivateKey)
    (evalKeyMap res : gmap Z EvalKey) (indexList : list Z) (rng rng' : Rng) :
  MultiEvalAutomorphismKeyGen privateKey evalKeyMap indexList rng
  = Ok (res, rng') →
  ((length indexList < 4)%nat ∨ (omp_team ≤ 1)%nat)
  ∧ Z.of_nat (length indexList)
    ≤ usint (usint (GetRingDimension (GetPrivateElement privateKey)) - 1)
  ∧ (∀ k, k ∈ indexList → k ∈ dom evalKeyMap)
  ∧ dom res = list_to_set indexList
  ∧ dom res ⊆ dom evalKeyMap
  ∧ (size res ≤ length indexList)%nat.
Proof.
  unfold MultiEvalAutomorphismKeyGen. case_decide as Hlen; [done|].
  destruct (runs_in_parallel indexList) eqn:Hpar; [done|].
  apply runs_in_parallel_false in Hpar.
  intros Hrun. apply automorphism_loop_Ok_inv in Hrun as [Hall Hdom].
  rewrite dom_empty_L, (left_id_L ∅ (∪)) in Hdom.
  assert (Hin : ∀ k, k ∈ indexList → k ∈ dom evalKeyMap).
  { intros k Hk. apply elem_of_dom.
    eapply Forall_forall in Hall; [exact Hall|done]. }
  split; [done|split; [lia|split; [done|split; [done|split]]]].
  - rewrite Hdom. intros k Hk. apply Hin. by apply elem_of_list_to_set in Hk.
  - rewrite <- size_dom, Hdom. apply size_list_to_set_le.
Qed.

(** X9. Whatever the collaborators do, the return of a map by
    MultiEvalAutomorphismKeyGen is defined only when the loop is run by one
    thread (fewer than four indices, or a team of one), the list passed the
    dimension check and every listed index is a key of the prior map; the
    keys of that map are exactly the listed indices, so there are at most as
    many as the list is long.  For four indices or more on a team of several
    threads no return is defined. *)
Theorem MultiEvalAutomorphismKeyGen_Ok_inv (privateKey : PrivateKey)
    (evalKeyMap res : gmap Z EvalKey) (indexList : list Z) (rng rng' : Rng) :
  MultiEvalAutomorphismKeyGen privateKey evalKeyMap indexList rng
  = Ok (res, rng') →
  ((length indexList < 4)%nat ∨ (omp_team ≤ 1)%nat)
  ∧ Z.of_nat (length indexList)
    ≤ usint (usint (GetRingDimension (GetPrivateElement privateKey)) - 1)
  ∧ (∀ k, k ∈ indexList → k ∈ dom evalKeyMap)
  ∧ dom res = list_to_set indexList
  ∧ dom res ⊆ dom evalKeyMap
  ∧ (size res ≤ length indexList)%nat.
Proof.
  exact (MultiEvalAutomorphismKeyGen_Ok_dom privateKey evalKeyMap res indexList
           rng rng').
Qed.

(** ** MultiEvalAtIndexKeyGen *)

(** X10. The return of a map by MultiEvalAtIndexKeyGen is defined only when
    the index rule returns for every shift, the rule being
    FindAutomorphismIndex2nComplex when the scheme id is CKKSRNS and
    FindAutomorphismIndex2n otherwise, and the loop of
    MultiEvalAutomorphismKeyGen is run by one thread (fewer than four
    shifts, or a team of one).  The keys of that map are exactly the rule's
    indices (as 32-bit values) of the listed shifts, all of them keys of the
    prior map, and the shift list is no longer than the dimension check
    allows. *)
Theorem MultiEvalAtIndexKeyGen_Ok_inv (privateKey : PrivateKey)
    (evalKeyMap res : gmap Z EvalKey) (indexList : list Z) (rng rng' : Rng) :
  MultiEvalAtIndexKeyGen privateKey evalKeyMap indexList rng = Ok (res, rng') →
  let M0 := GetCyclotomicOrder
              (GetElementParams (GetCryptoParameters (sk_context privateKey))) in
  let rule := if decide (getSchemeId (sk_context privateKey) = "CKKSRNS"%string)
              then FindAutomorphismIndex2nComplex
              else FindAutomorphismIndex2n in
  ((length indexList < 4)%nat ∨ (omp_team ≤ 1)%nat)
  ∧ Z.of_nat (length indexList)
    ≤ usint (usint (GetRingDimension (GetPrivateElement privateKey)) - 1)
  ∧ (∀ i, i ∈ indexList →
       ∃ v, rule i M0 = Ok v ∧ usint v ∈ dom res)
  ∧ (∀ k, k ∈ dom res →
       ∃ i v, i ∈ indexList ∧ rule i M0 = Ok v ∧ k = usint v)
  ∧ dom res ⊆ dom evalKeyMap.
Proof.
  intros Hrun M0 rule. unfold MultiEvalAtIndexKeyGen in Hrun. fold M0 in Hrun.
  apply bind_M_Ok_inv in Hrun as (autoIndices & r1 & Hidx & Hrun).
  apply lift_Ok_inv in Hidx as [Hidx ->].
  apply mapM_outcome_Ok in Hidx.
  apply MultiEvalAutomorphismKeyGen_Ok_dom in Hrun
    as (Hseq & Hlen & _ & Hdom & Hsub & _).
  assert (Hrule : ∀ i k,
            automorphism_index (sk_context privateKey) M0 i = Ok k
            ↔ ∃ v, rule i M0 = Ok v ∧ k = usint v).
  { intros i k. unfold automorphism_index, rule.
    destruct (decide _);
      match goal with
      | |- context [?F i M0 ≫= _] => destruct (F i M0) as [v| |]
      end; simpl; split;
      try done; try (by intros (? & ? & _));
      try (intros Heq; injection Heq as <-; by eexists);
      intros (v' & Hv & ->); by injection Hv as ->. }
  rewrite <- (Forall2_length _ _ _ Hidx) in Hlen, Hseq.
  split; [done|split; [done|split; [|split; [|done]]]].
  - intros i Hi. apply list_elem_of_lookup in Hi as [j Hj].
    destruct (Forall2_lookup_l _ _ _ _ _ Hidx Hj) as (k & Hk & Hik).
    apply Hrule in Hik as (v & Hv & ->). exists v. split; [done|].
    rewrite Hdom. apply elem_of_list_to_set, list_elem_of_lookup. eauto.
  - intros k Hk. rewrite Hdom in Hk.
    apply elem_of_list_to_set, list_elem_of_lookup in Hk as [j Hj].
    destruct (Forall2_lookup_r _ _ _ _ _ Hidx Hj) as (i & Hi & Hik).
    apply Hrule in Hik as (v & Hv & ->). exists i, v.
    split; [|done]. apply list_elem_of_lookup. eauto.
Qed.

(** X11. MultiEvalAtIndexKeyGen computes all the indices before the
    dimension check: for a ring dimension [0 < N < 2^32] and shifts that all
    have an index, a shift list longer than [N - 1] fails with
    [math_error "size exceeds the ring dimension"]; the empty shift list
    returns the empty map and leaves the generator untouched. *)
Theorem MultiEvalAtIndexKeyGen_bounds (privateKey : PrivateKey)
    (evalKeyMap : gmap Z EvalKey) (indexList : list Z) (rng : Rng) :
  0 < GetRingDimension (GetPrivateElement privateKey) < 2 ^ 32 →
  Forall (λ i, ∃ k,
            automorphism_index (sk_context privateKey)
              (GetCyclotomicOrder
                 (GetElementParams
                    (GetCryptoParameters (sk_context privateKey)))) i
            = Ok k) indexList →
  (Z.of_nat (length indexList)
   > GetRingDimension (GetPrivateElement privateKey) - 1 →
   MultiEvalAtIndexKeyGen privateKey evalKeyMap indexList rng
   = Throw size_exceeds)
  ∧ (indexList = [] →
     MultiEvalAtIndexKeyGen privateKey evalKeyMap indexList rng
     = Ok (∅, rng)).
Proof.
  intros HN Hidx. unfold MultiEvalAtIndexKeyGen.
  destruct (mapM_outcome_total _ _ Hidx) as [autoIndices Hauto].
  rewrite (bind_M_lift_Ok _ _ _ _ Hauto).
  apply mapM_outcome_Ok, Forall2_length in Hauto.
  assert (HuN : usint (GetRingDimension (GetPrivateElement privateKey))
                = GetRingDimension (GetPrivateElement privateKey))
    by (apply Z.mod_small; lia).
  assert (Hu1 : usint (usint (GetRingDimension (GetPrivateElement privateKey))
                       - 1)
                = GetRingDimension (GetPrivateElement privateKey) - 1)
    by (rewrite HuN; apply Z.mod_small; lia).
  split.
  - intros Hgt. apply dimension_check_fires. cbv zeta.
    rewrite Hu1, <- Hauto. lia.
  - intros ->. destruct autoIndices; [|done].
    rewrite dimension_check_passes; [done| |done].
    cbv zeta. rewrite Hu1. simpl. lia.
Qed.

(** ** MultiEvalSumKeyGen: edges and parity *)

(** X12. MultiEvalSumKeyGen has no guard on its parameters: for a batch size
    0 the conversion of [ceil(log2(0))] is undefined, and for a batch size of
    2 or more with a cyclotomic order 0 the reduction [% M] divides by zero;
    in both cases no key is generated. *)
Theorem MultiEvalSumKeyGen_unguarded (privateKey : PrivateKey)
    (evalKeyMap : gmap Z EvalKey) (rng : Rng) :
  let cp := GetCryptoParameters (sk_context privateKey) in
  (GetBatchSize (GetEncodingParams cp) ≤ 0 →
   MultiEvalSumKeyGen privateKey evalKeyMap rng
   = Undefined float_to_integer_out_of_range)
  ∧ (2 ≤ GetBatchSize (GetEncodingParams cp) →
     GetCyclotomicOrder (GetElementParams cp) = 0 →
     MultiEvalSumKeyGen privateKey evalKeyMap rng
     = Undefined division_by_zero).
Proof.
  intros cp. unfold MultiEvalSumKeyGen, ceil_log2. fold cp. split.
  - intros HB. by rewrite decide_True.
  - intros HB HM. rewrite decide_False by lia.
    rewrite (bind_M_lift_Ok _ _ _ _ eq_refl), HM.
    pose proof (Z.log2_up_pos (GetBatchSize (GetEncodingParams cp))
                  ltac:(lia)) as Hpos.
    destruct (Z.to_nat (Z.log2_up (GetBatchSize (GetEncodingParams cp))))
      as [|n] eqn:Hn; [lia|].
    reflexivity.
Qed.

Lemma odd_mod_even (a m : Z) :
  m ≠ 0 → Z.even m = true → Z.odd (a mod m) = Z.odd a.
Proof.
  intros Hm Hev. rewrite (Z.div_mod a m Hm) at 2.
  rewrite Z.odd_add, Z.odd_mul, <- (Z.negb_even m), Hev. simpl.
  by destruct (Z.odd (a mod m)).
Qed.

Lemma sum_indices_odd (M0 : Z) (n : nat) :
  0 < M0 → Z.even M0 = true →
  ∀ g indices,
    Z.odd g = true → 0 < g →
    sum_indices M0 n g = Ok indices →
    Forall (λ k, Z.odd k = true ∧ 0 < k) indices.
Proof.
  intros HM Hev. induction n as [|n IH]; intros g indices Hg Hpos Hrun.
  - injection Hrun as <-. constructor.
  - cbn [sum_indices] in Hrun. rewrite decide_False in Hrun by lia.
    destruct (sum_indices M0 n (usint (g * g) mod M0)) as [rest| |] eqn:Hrest;
      simpl in Hrun; try done.
    injection Hrun as <-. constructor; [done|].
    assert (Hodd : Z.odd (usint (g * g) mod M0) = true).
    { rewrite odd_mod_even by (done || lia). unfold usint.
      rewrite odd_mod_even by done. by rewrite Z.odd_mul, Hg. }
    apply (IH _ _ Hodd); [|done].
    pose proof (Z.mod_pos_bound (usint (g * g)) M0 HM).
    destruct (decide (usint (g * g) mod M0 = 0)) as [Hz|]; [|lia].
    by rewrite Hz in Hodd.
Qed.

(** X13. For an even cyclotomic order [M > 0], every index MultiEvalSumKeyGen
    generates is odd and positive, and all but the first (which is 5,
    unreduced) lie below [M]: they are units modulo a power of two. *)
Theorem MultiEvalSumKeyGen_indices_odd (M0 : Z) (max : nat) (indices : list Z) :
  0 < M0 → Z.even M0 = true →
  sum_indices M0 max 5 = Ok indices →
  Forall (λ k, Z.odd k = true ∧ 0 < k) indices
  ∧ indices !! 0%nat = (if decide (max = 0%nat) then None else Some 5)
  ∧ ∀ j k, indices !! S j = Some k → k < M0.
Proof.
  intros HM Hev Hrun. split; [|split].
  - by apply (sum_indices_odd M0 max HM Hev 5 indices).
  - destruct max as [|n]; [by injection Hrun as <-|].
    cbn [sum_indices] in Hrun. rewrite decide_False in Hrun by lia.
    destruct (sum_indices M0 n _) as [rest| |]; simpl in Hrun; try done.
    by injection Hrun as <-.
  - clear Hev. revert Hrun. generalize 5. revert indices.
    induction max as [|n IH]; intros indices g Hrun j k Hk.
    + injection Hrun as <-. done.
    + cbn [sum_indices] in Hrun. rewrite decide_False in Hrun by lia.
      destruct (sum_indices M0 n (usint (g * g) mod M0)) as [rest| |] eqn:Hrest;
        simpl in Hrun; try done.
      injection Hrun as <-. simpl in Hk. destruct j as [|j].
      * destruct n as [|n]; [by injection Hrest as <-|].
        cbn [sum_indices] in Hrest. rewrite decide_False in Hrest by lia.
        destruct (sum_indices M0 n _) as [rest'| |]; simpl in Hrest; try done.
        injection Hrest as <-. injection Hk as <-.
        apply Z.mod_pos_bound. done.
      * by eapply IH.
Qed.

(** ** The summation indices are pairwise distinct *)






(** ** Fusion: when it returns, and the order of the partials *)

Lemma Fusion_loop_result `{!LatticeLaws} (ct0 : Ciphertext)
    (rest : list Ciphertext) (b0 : Element) (firsts : list Element) :
  first_element ct0 = Some b0 →
  Forall2 (λ ct x, first_element ct = Some x) rest firsts →
  Forall (λ x, GetParams x = GetParams b0) firsts →
  MultipartyDecryptFusion (ct0 :: rest)
  = Ok (ToNativePoly (SetFormat COEFFICIENT (fold_left add firsts b0)),
        {| messageLength :=
             GetLength (ToNativePoly
                          (SetFormat COEFFICIENT (fold_left add firsts b0))) |}).
Proof.
  intros H0 H2 Hall. unfold MultipartyDecryptFusion.
  change (at_index (ct0 :: rest) 0) with (Ok ct0).
  rewrite bind_Ok, (at_index_Some _ _ _ H0), bind_Ok.
  change (tail (ct0 :: rest)) with rest.
  by rewrite (fusion_loop_same _ _ _ H2 Hall).
Qed.

Section FusionAndShares.
Context `{!LatticeLaws}.

Lemma fusion_loop_Ok_inv (rest : list Ciphertext) :
  ∀ b b',
    foldl_outcome (λ b cti, x ← at_index (GetElements cti) 0; Plus b x) b rest
    = Ok b' →
    ∃ firsts,
      Forall2 (λ ct x, first_element ct = Some x) rest firsts
      ∧ Forall (λ x, GetParams x = GetParams b) firsts
      ∧ b' = fold_left add firsts b.
Proof.
  induction rest as [|ct rest IH]; intros b b' Hrun.
  - injection Hrun as <-. exists []. by repeat constructor.
  - rewrite foldl_outcome_cons in Hrun.
    destruct (GetElements ct !! 0%nat) as [x|] eqn:Hx;
      [|by rewrite (at_index_None _ _ Hx) in Hrun].
    rewrite (at_index_Some _ _ _ Hx), bind_Ok in Hrun.
    destruct (decide (GetParams b = GetParams x)) as [Hp|Hp];
      [|by rewrite (Plus_mismatch _ _ Hp) in Hrun].
    rewrite (Plus_same _ _ Hp), bind_Ok in Hrun.
    apply IH in Hrun as (firsts & H2 & Hall & ->).
    exists (x :: firsts). split; [by constructor|]. split; [|done].
    constructor; [done|].
    eapply Forall_impl; [exact Hall|]. intros y Hy.
    by rewrite Hy, GetParams_add.
Qed.

(** X15. MultipartyDecryptFusion returns a result exactly when the list of
    partials is not empty, every partial has an element 0 and all these
    elements have the ring parameters of the first; the result is then the
    native polynomial of their left-to-right sum, set to coefficient format,
    and its length.  Nothing else about the partials is looked at. *)
Theorem MultipartyDecryptFusion_Ok_iff (ciphertextVec : list Ciphertext)
    (out : NativePoly * DecryptResult) :
  MultipartyDecryptFusion ciphertextVec = Ok out
  ↔ ∃ b0 firsts,
      Forall2 (λ ct x, first_element ct = Some x) ciphertextVec (b0 :: firsts)
      ∧ Forall (λ x, GetParams x = GetParams b0) firsts
      ∧ out = (ToNativePoly (SetFormat COEFFICIENT (fold_left add firsts b0)),
               {| messageLength :=
                    GetLength (ToNativePoly
                                 (SetFormat COEFFICIENT
                                    (fold_left add firsts b0))) |}).
Proof.
  split.
  - unfold MultipartyDecryptFusion.
    destruct ciphertextVec as [|ct0 rest]; [done|].
    change (at_index (ct0 :: rest) 0) with (Ok ct0). rewrite bind_Ok.
    destruct (GetElements ct0 !! 0%nat) as [b0|] eqn:H0;
      [|by rewrite (at_index_None _ _ H0)].
    rewrite (at_index_Some _ _ _ H0), bind_Ok.
    change (tail (ct0 :: rest)) with rest.
    destruct (foldl_outcome _ b0 rest) as [b| |] eqn:Hloop; try done.
    rewrite bind_Ok. intros Heq. injection Heq as <-.
    apply fusion_loop_Ok_inv in Hloop as (firsts & H2 & Hall & ->).
    exists b0, firsts. split; [by constructor|done].
  - intros (b0 & firsts & H2 & Hall & ->).
    inversion H2 as [|ct0 ? rest ? H0 Hrest]; subst.
    by apply Fusion_loop_result.
Qed.

Lemma fold_left_add_Permutation p f (l l' : list Element) :
  l ≡ₚ l' → Forall (shaped p f) l →
  ∀ acc, shaped p f acc → fold_left add l acc = fold_left add l' acc.
Proof.
  induction 1 as [|x l l' Hperm IH|x y l|l l' l'' H1 IH1 H2 IH2];
    intros Hall acc Hacc.
  - done.
  - apply Forall_cons in Hall as [Hx Hall]. simpl.
    apply IH; [done|]. by apply shaped_add.
  - apply Forall_cons in Hall as [Hy Hall].
    apply Forall_cons in Hall as [Hx Hall]. simpl. f_equal.
    rewrite (add_assoc acc y x), (add_assoc acc x y)
      by eauto using shaped_compatible.
    f_equal. apply add_comm. eauto using shaped_compatible.
  - rewrite IH1 by done. apply IH2; [|done]. by rewrite <- H1.
Qed.

(** The fused sum, as a sum from the zero element over element 0 of every
    partial. *)
Lemma Fusion_as_fold p f (l : list Ciphertext) :
  l ≠ [] →
  Forall (λ ct, ∃ x, first_element ct = Some x ∧ shaped p f x) l →
  MultipartyDecryptFusion l
  = (let b := fold_left add (omap first_element l) (zero p f) in
     Ok (ToNativePoly (SetFormat COEFFICIENT b),
         {| messageLength :=
              GetLength (ToNativePoly (SetFormat COEFFICIENT b)) |}))
  ∧ Forall (shaped p f) (omap first_element l).
Proof.
  intros Hne Hall.
  assert (Hsh : Forall (shaped p f) (omap first_element l)).
  { apply Forall_forall. intros x Hx.
    apply list_elem_of_omap in Hx as (ct & Hct & Hfx).
    eapply Forall_forall in Hall as (x' & Hx' & Hs); [|exact Hct].
    congruence. }
  split; [|done].
  destruct l as [|ct0 rest]; [done|].
  apply Forall_cons in Hall as [(b0 & H0 & [Hp0 Hf0]) Hrest].
  assert (H2 : Forall2 (λ ct x, first_element ct = Some x) rest
                 (omap first_element rest)).
  { clear -Hrest. induction Hrest as [|ct rest (x & Hx & _) _ IH]; simpl.
    - constructor.
    - rewrite Hx. by constructor. }
  change (omap first_element (ct0 :: rest))
    with (match first_element ct0 with
          | Some x => x :: omap first_element rest
          | None => omap first_element rest
          end) in Hsh |- *.
  rewrite H0 in Hsh |- *. apply Forall_cons in Hsh as [_ Hsh].
  rewrite (Fusion_loop_result ct0 rest b0 (omap first_element rest) H0 H2).
  - pose proof (add_zero_l b0) as Hz. rewrite Hp0, Hf0 in Hz.
    cbv zeta. cbn [fold_left]. by rewrite Hz.
  - eapply Forall_impl; [exact Hsh|]. intros x [Hx _]. congruence.
Qed.

(** X16. The order of the partials does not matter to
    MultipartyDecryptFusion when their elements 0 all have the same ring
    parameters and the same representation: any rearrangement of the list
    gives the same result. *)
Theorem MultipartyDecryptFusion_Permutation (p : ParmType) (f : Format)
    (l l' : list Ciphertext) :
  l ≡ₚ l' →
  Forall (λ ct, ∃ x, first_element ct = Some x ∧ shaped p f x) l →
  MultipartyDecryptFusion l = MultipartyDecryptFusion l'.
Proof.
  intros Hperm Hall.
  destruct (decide (l = [])) as [->|Hne].
  { apply Permutation_nil_l in Hperm as <-. done. }
  assert (Hne' : l' ≠ []).
  { intros ->. by apply Permutation_nil_r in Hperm. }
  assert (Hall' : Forall (λ ct, ∃ x, first_element ct = Some x ∧ shaped p f x)
                    l') by (by rewrite <- Hperm).
  destruct (Fusion_as_fold p f l Hne Hall) as [-> Hsh].
  destruct (Fusion_as_fold p f l' Hne' Hall') as [-> _].
  cbv zeta.
  rewrite (fold_left_add_Permutation p f (omap first_element l)
             (omap first_element l')); [done| |done|].
  - by rewrite Hperm.
  - split; [apply GetParams_zero|apply GetFormat_zero].
Qed.

(** ** The aggregate key generation, beyond well-formed shares *)

Lemma sum_private_elements_params acc (l : list PrivateKey) :
  Forall (λ sk, GetParams (GetPrivateElement sk) = GetParams acc) l →
  sum_private_elements acc l
  = Ok (fold_left add (GetPrivateElement <$> l) acc).
Proof.
  unfold sum_private_elements.
  revert acc. induction l as [|sk l IH]; intros acc Hall; [done|].
  apply Forall_cons in Hall as [Hsk Hall].
  rewrite foldl_outcome_cons, Plus_same, bind_Ok by done.
  rewrite IH; [done|].
  eapply Forall_impl; [exact Hall|]. intros sk' Hsk'.
  by rewrite GetParams_add.
Qed.

Lemma MultipartyKeyGen_shares_of_sum cc l makeSparse rng s :
  sum_private_elements
    (zero (GetElementParams (GetCryptoParameters cc)) EVALUATION) l = Ok s →
  GetParams s = GetElementParams (GetCryptoParameters cc) →
  let cp := GetCryptoParameters cc in
  let a := Element_dug (GetElementParams cp) EVALUATION rng in
  let e := Element_dgg (dgg_std (GetDiscreteGaussianGenerator cp))
             (GetElementParams cp) EVALUATION a.2 in
  MultipartyKeyGen_shares cc l makeSparse rng
  = Ok ({| publicKey :=
             {| pk_context := cc;
                GetPublicElements :=
                  [sub (smul (GetNoiseScale cp) e.1) (mul a.1 s); a.1] |};
           secretKey := {| sk_context := cc; GetPrivateElement := s |} |},
        e.2).
Proof.
  intros Hsum Hsp cp a e. unfold MultipartyKeyGen_shares. fold cp.
  rewrite (bind_M_lift_Ok _ _ _ _ Hsum), !bind_M_draw. fold a. fold e.
  assert (Ha : GetParams a.1 = GetParams s)
    by (subst a; rewrite GetParams_dug; symmetry; exact Hsp).
  erewrite bind_M_lift_Ok; [reflexivity|].
  rewrite (Times_same _ _ Ha), bind_Ok. apply Minus_same.
  rewrite GetParams_smul, GetParams_mul by exact Ha.
  subst a e. by rewrite GetParams_dgg, GetParams_dug.
Qed.

Lemma fold_left_add_params p (l : list Element) acc :
  GetParams acc = p → Forall (λ x, GetParams x = p) l →
  GetParams (fold_left add l acc) = p.
Proof.
  revert acc. induction l as [|x l IH]; intros acc Hacc Hall; [done|].
  apply Forall_cons in Hall as [Hx Hall]. simpl. apply IH; [|done].
  rewrite GetParams_add; congruence.
Qed.

(** X17. MultipartyKeyGen over a share vector returns a key pair exactly
    when every share has the ring parameters of the context, whatever its
    representation; the secret is then the left-to-right sum of the shares
    from the zero element.  In particular the empty share vector is accepted
    and gives the zero secret.  A share with other parameters makes it throw
    ParameterMismatch. *)
Theorem AggregateKeyGen_outcome (cc : CryptoContext)
    (privateKeyVec : list PrivateKey) (makeSparse : bool) (rng : Rng) :
  let cp := GetCryptoParameters cc in
  let ep := GetElementParams cp in
  let a := Element_dug ep EVALUATION rng in
  let e := Element_dgg (dgg_std (GetDiscreteGaussianGenerator cp)) ep
             EVALUATION a.2 in
  let s := fold_left add (GetPrivateElement <$> privateKeyVec)
             (zero ep EVALUATION) in
  (Forall (λ sk, GetParams (GetPrivateElement sk) = ep) privateKeyVec →
   MultipartyKeyGen_shares cc privateKeyVec makeSparse rng
   = Ok ({| publicKey :=
              {| pk_context := cc;
                 GetPublicElements :=
                   [sub (smul (GetNoiseScale cp) e.1) (mul a.1 s); a.1] |};
            secretKey := {| sk_context := cc; GetPrivateElement := s |} |},
         e.2))
  ∧ (¬ Forall (λ sk, GetParams (GetPrivateElement sk) = ep) privateKeyVec →
     MultipartyKeyGen_shares cc privateKeyVec makeSparse rng
     = Throw ParameterMismatch)
  ∧ (privateKeyVec = [] → s = zero ep EVALUATION).
Proof.
  intros cp ep a e s. split; [|split].
  - intros Hall. apply MultipartyKeyGen_shares_of_sum.
    + apply sum_private_elements_params.
      eapply Forall_impl; [exact Hall|]. intros sk Hsk.
      by rewrite GetParams_zero.
    + apply fold_left_add_params; [apply GetParams_zero|].
      by apply Forall_fmap.
  - intros Hnot. apply not_Forall_Exists in Hnot; [|apply _].
    unfold MultipartyKeyGen_shares. apply bind_M_Throw.
    rewrite sum_private_elements_mismatch; [done|].
    by rewrite GetParams_zero.
  - by intros ->.
Qed.

(** X18. The key pair of MultipartyKeyGen over a share vector does not
    depend on the order of the shares (over the context's parameters, in
    evaluation format) nor on the flag [makeSparse]. *)
Theorem AggregateKeyGen_Permutation (cc : CryptoContext)
    (shares shares' : list PrivateKey) (makeSparse makeSparse' : bool)
    (rng : Rng) :
  shares ≡ₚ shares' →
  Forall (λ sk, shaped (GetElementParams (GetCryptoParameters cc)) EVALUATION
                  (GetPrivateElement sk)) shares →
  MultipartyKeyGen_shares cc shares makeSparse rng
  = MultipartyKeyGen_shares cc shares' makeSparse' rng.
Proof.
  intros Hperm Hall.
  set (ep := GetElementParams (GetCryptoParameters cc)) in *.
  assert (Hall' : Forall (λ sk, shaped ep EVALUATION (GetPrivateElement sk))
                    shares') by (by rewrite <- Hperm).
  assert (Hz : shaped ep EVALUATION (zero ep EVALUATION))
    by (split; [apply GetParams_zero|apply GetFormat_zero]).
  assert (Hsum : ∀ l,
            Forall (λ sk, shaped ep EVALUATION (GetPrivateElement sk)) l →
            sum_private_elements (zero ep EVALUATION) l
            = Ok (fold_left add (GetPrivateElement <$> l) (zero ep EVALUATION))
            ∧ Forall (shaped ep EVALUATION) (GetPrivateElement <$> l)).
  { intros l Hl. split; [|by apply Forall_fmap].
    apply sum_private_elements_params.
    eapply Forall_impl; [exact Hl|]. intros sk [Hp _].
    by rewrite GetParams_zero. }
  destruct (Hsum shares Hall) as [H1 Hsh]. destruct (Hsum shares' Hall') as [H2 _].
  rewrite (fold_left_add_Permutation ep EVALUATION _
             (GetPrivateElement <$> shares')) in H1;
    [|by rewrite Hperm|done|done].
  assert (Hp : GetParams (fold_left add (GetPrivateElement <$> shares')
                            (zero ep EVALUATION)) = ep).
  { apply fold_left_add_params; [apply GetParams_zero|].
    apply Forall_fmap. eapply Forall_impl; [exact Hall'|]. by intros sk [??]. }
  rewrite (MultipartyKeyGen_shares_of_sum cc shares makeSparse rng _ H1 Hp).
  by rewrite (MultipartyKeyGen_shares_of_sum cc shares' makeSparse' rng _ H2 Hp).
Qed.

(** ** Failure modes of the key extension and of the partial decryptions *)

Lemma draw_secret_bind {B} (cp : CryptoParametersRLWE) (k : Element → M B) rng :
  (draw_secret cp ≫= k) rng
  = let s := match GetMode cp with
             | RLWE => Element_dgg (dgg_std (GetDiscreteGaussianGenerator cp))
                         (GetElementParams cp) EVALUATION rng
             | OPTIMIZED => Element_tug (GetElementParams cp) EVALUATION None rng
             | SPARSE => Element_tug (GetElementParams cp) EVALUATION (Some 64)
                           rng
             end in
    k s.1 s.2.
Proof. unfold draw_secret. destruct (GetMode cp); apply bind_M_draw. Qed.

Lemma draw_secret_params (cp : CryptoParametersRLWE) rng :
  GetParams (match GetMode cp with
             | RLWE => Element_dgg (dgg_std (GetDiscreteGaussianGenerator cp))
                         (GetElementParams cp) EVALUATION rng
             | OPTIMIZED => Element_tug (GetElementParams cp) EVALUATION None rng
             | SPARSE => Element_tug (GetElementParams cp) EVALUATION (Some 64)
                           rng
             end).1 = GetElementParams cp.
Proof.
  destruct (GetMode cp);
    [apply GetParams_dgg|apply GetParams_tug|apply GetParams_tug].
Qed.

(** X19. MultipartyKeyGen over a public key has no guard of its own: a key
    without an element 1 reaches the unguarded [pk[1]]; an [a] with other
    ring parameters than the context's throws ParameterMismatch, and so does
    a [b] with other parameters when [fresh] is false.  When [fresh] is true
    [b] is never read: the outcome depends on the predecessor key only
    through its element 1. *)
Theorem ExtendKeyGen_failures (cc : CryptoContext) (pk0 : PublicKey)
    (makeSparse fresh : bool) (rng : Rng) :
  let ep := GetElementParams (GetCryptoParameters cc) in
  (GetPublicElements pk0 !! 1%nat = None →
   MultipartyKeyGen_pubkey cc pk0 makeSparse fresh rng
   = Undefined vector_out_of_range)
  ∧ (∀ a, GetPublicElements pk0 !! 1%nat = Some a → GetParams a ≠ ep →
       MultipartyKeyGen_pubkey cc pk0 makeSparse fresh rng
       = Throw ParameterMismatch)
  ∧ (∀ a b, GetPublicElements pk0 !! 1%nat = Some a →
       GetPublicElements pk0 !! 0%nat = Some b →
       GetParams a = ep → GetParams b ≠ ep → fresh = false →
       MultipartyKeyGen_pubkey cc pk0 makeSparse fresh rng
       = Throw ParameterMismatch)
  ∧ (∀ pk1 makeSparse',
       GetPublicElements pk1 !! 1%nat = GetPublicElements pk0 !! 1%nat →
       MultipartyKeyGen_pubkey cc pk1 makeSparse' true rng
       = MultipartyKeyGen_pubkey cc pk0 makeSparse true rng).
Proof.
  intros ep. subst ep. unfold MultipartyKeyGen_pubkey.
  pose proof (draw_secret_params (GetCryptoParameters cc) rng) as Hs.
  split; [|split; [|split]].
  - intros Hnone. rewrite draw_secret_bind. cbv zeta.
    by rewrite (at_index_None _ _ Hnone).
  - intros a Ha Hne. rewrite draw_secret_bind. cbv zeta.
    rewrite (bind_M_lift_Ok _ _ _ _ (at_index_Some _ _ _ Ha)), bind_M_draw.
    apply bind_M_Throw.
    rewrite Times_mismatch; [done|]. by rewrite Hs.
  - intros a b Ha Hb Hpa Hpb ->. rewrite draw_secret_bind. cbv zeta.
    rewrite (bind_M_lift_Ok _ _ _ _ (at_index_Some _ _ _ Ha)), bind_M_draw.
    apply bind_M_Throw.
    rewrite Times_same, bind_Ok by (by rewrite Hs).
    rewrite Minus_same, bind_Ok
      by (rewrite GetParams_smul, GetParams_dgg, GetParams_mul;
          [done|by rewrite Hs]).
    rewrite (at_index_Some _ _ _ Hb), bind_Ok.
    rewrite Plus_mismatch; [done|].
    rewrite GetParams_sub, GetParams_smul, GetParams_dgg; [by apply not_eq_sym|].
    rewrite GetParams_smul, GetParams_dgg, GetParams_mul;
      [done|by rewrite Hs].
  - intros pk1 makeSparse' Heq. rewrite !draw_secret_bind. cbv zeta.
    unfold at_index. by rewrite Heq.
Qed.

(** X20. The partial decryptions have no guard of their own either: a
    ciphertext without an element 1 reaches an unguarded access in both, and
    a [c1] whose ring parameters differ from the secret's throws
    ParameterMismatch in both.  MultipartyDecryptMain never reads [c0]: its
    outcome depends on the ciphertext only through its context and its
    element 1. *)
Theorem partial_decryption_failures (ciphertext : Ciphertext)
    (privateKey : PrivateKey) (rng : Rng) :
  (GetElements ciphertext !! 1%nat = None →
   MultipartyDecryptLead ciphertext privateKey rng
   = Undefined vector_out_of_range
   ∧ MultipartyDecryptMain ciphertext privateKey rng
     = Undefined vector_out_of_range)
  ∧ (∀ c1, GetElements ciphertext !! 1%nat = Some c1 →
       GetParams (GetPrivateElement privateKey) ≠ GetParams c1 →
       MultipartyDecryptLead ciphertext privateKey rng
       = Throw ParameterMismatch
       ∧ MultipartyDecryptMain ciphertext privateKey rng
         = Throw ParameterMismatch)
  ∧ (∀ ciphertext',
       ct_context ciphertext' = ct_context ciphertext →
       GetElements ciphertext' !! 1%nat = GetElements ciphertext !! 1%nat →
       MultipartyDecryptMain ciphertext' privateKey rng
       = MultipartyDecryptMain ciphertext privateKey rng).
Proof.
  split; [|split].
  - intros Hnone. unfold MultipartyDecryptLead, MultipartyDecryptMain.
    rewrite !bind_M_draw. split.
    + apply bind_M_Undefined. unfold lift, at_index.
      rewrite Hnone. by destruct (GetElements ciphertext !! 0%nat).
    + apply bind_M_Undefined. by rewrite (at_index_None _ _ Hnone).
  - intros c1 Hc1 Hne. unfold MultipartyDecryptLead, MultipartyDecryptMain.
    rewrite !bind_M_draw. split.
    + apply bind_M_Throw.
      assert (Hc0 : is_Some (GetElements ciphertext !! 0%nat)).
      { apply lookup_lt_is_Some. apply lookup_lt_Some in Hc1. lia. }
      destruct Hc0 as [c0 Hc0].
      rewrite (at_index_Some _ _ _ Hc0), bind_Ok.
      rewrite (at_index_Some _ _ _ Hc1), bind_Ok.
      by rewrite Times_mismatch.
    + apply bind_M_Throw.
      rewrite (at_index_Some _ _ _ Hc1), bind_Ok.
      by rewrite Times_mismatch.
  - intros ciphertext' Hcc Hel. unfold MultipartyDecryptMain, at_index.
    by rewrite Hcc, Hel.
Qed.

(** ** Lead, follower and fusion in sequence *)

Lemma shaped_same_params p f g x y :
  shaped p f x → shaped p g y → GetParams x = GetParams y.
Proof. intros [??] [??]. congruence. Qed.

(** X21. A lead and a follower partial of one evaluation-format ciphertext,
    computed one after the other and fused: all three calls return, and the
    fused polynomial is that of [lead + follower] set to coefficient format,
    where [lead] is [c0 + s1*c1 + ns*e1] after its format switch, in
    coefficient format, and [follower] is [s2*c1 + ns*e2], still in
    evaluation format.  Fusion adds the two as they are. *)
Theorem lead_follower_fusion `{!RingLaws} (ciphertext : Ciphertext)
    (sk1 sk2 : PrivateKey) (c0 c1 : Element) (more : list Element)
    (rng : Rng) :
  GetElements ciphertext = c0 :: c1 :: more →
  GetCryptoParameters (sk_context sk1) = GetCryptoParameters (sk_context sk2) →
  Forall (shaped (GetElementParams (GetCryptoParameters (sk_context sk1)))
                 EVALUATION)
         [GetPrivateElement sk1; GetPrivateElement sk2; c0; c1] →
  let cp := GetCryptoParameters (sk_context sk1) in
  let ns := GetNoiseScale cp in
  let e1 := Element_dgg MP_SD (GetElementParams cp) EVALUATION rng in
  let e2 := Element_dgg MP_SD (GetElementParams cp) EVALUATION e1.2 in
  let lead := SwitchFormat
                (add (add c0 (mul (GetPrivateElement sk1) c1))
                     (smul ns e1.1)) in
  let follower := add (mul (GetPrivateElement sk2) c1) (smul ns e2.1) in
  let fused := ToNativePoly (SetFormat COEFFICIENT (add lead follower)) in
  MultipartyDecryptLead ciphertext sk1 rng
  = Ok ({| ct_context := ct_context ciphertext; GetElements := [lead] |},
        e1.2)
  ∧ MultipartyDecryptMain ciphertext sk2 e1.2
    = Ok ({| ct_context := ct_context ciphertext;
             GetElements := [follower] |}, e2.2)
  ∧ MultipartyDecryptFusion
      [{| ct_context := ct_context ciphertext; GetElements := [lead] |};
       {| ct_context := ct_context ciphertext; GetElements := [follower] |}]
    = Ok (fused, {| messageLength := GetLength fused |})
  ∧ GetFormat lead = COEFFICIENT ∧ GetFormat follower = EVALUATION.
Proof.
  intros Hct Hcp Hall cp ns e1 e2 lead follower fused.
  set (ep := GetElementParams cp) in *.
  apply Forall_cons in Hall as [Hs1 Hall]. apply Forall_cons in Hall as [Hs2 Hall].
  apply Forall_cons in Hall as [Sc0 Hall]. apply Forall_cons in Hall as [Sc1 _].
  assert (He1 : shaped ep EVALUATION (smul ns e1.1)).
  { apply shaped_smul. split; [apply GetParams_dgg|apply GetFormat_dgg]. }
  assert (He2 : shaped ep EVALUATION (smul ns e2.1)).
  { apply shaped_smul. split; [apply GetParams_dgg|apply GetFormat_dgg]. }
  assert (Hm1 : shaped ep EVALUATION (mul (GetPrivateElement sk1) c1))
    by (by apply shaped_mul).
  assert (Hm2 : shaped ep EVALUATION (mul (GetPrivateElement sk2) c1))
    by (by apply shaped_mul).
  assert (Ht : shaped ep EVALUATION (add c0 (mul (GetPrivateElement sk1) c1)))
    by (by apply shaped_add).
  assert (Hl : shaped ep EVALUATION
                 (add (add c0 (mul (GetPrivateElement sk1) c1)) (smul ns e1.1)))
    by (by apply shaped_add).
  assert (Hf : shaped ep EVALUATION follower) by (by apply shaped_add).
  assert (Hlead : MultipartyDecryptLead ciphertext sk1 rng
                  = Ok ({| ct_context := ct_context ciphertext;
                           GetElements := [lead] |}, e1.2)).
  { unfold MultipartyDecryptLead. fold cp ns ep.
    rewrite bind_M_draw, Hct. fold e1.
    erewrite bind_M_lift_Ok; [reflexivity|].
    change (at_index (c0 :: c1 :: more) 0) with (Ok c0).
    change (at_index (c0 :: c1 :: more) 1) with (Ok c1).
    rewrite !bind_Ok.
    rewrite Times_same, bind_Ok by (exact (shaped_same_params _ _ _ _ _ Hs1 Sc1)).
    rewrite Plus_same, bind_Ok by (exact (shaped_same_params _ _ _ _ _ Sc0 Hm1)).
    apply Plus_same. exact (shaped_same_params _ _ _ _ _ Ht He1). }
  assert (Hmain : MultipartyDecryptMain ciphertext sk2 e1.2
                  = Ok ({| ct_context := ct_context ciphertext;
                           GetElements := [follower] |}, e2.2)).
  { unfold MultipartyDecryptMain. rewrite <- Hcp. fold cp ns ep.
    rewrite bind_M_draw, Hct. fold e2.
    erewrite bind_M_lift_Ok; [reflexivity|].
    change (at_index (c0 :: c1 :: more) 1) with (Ok c1).
    rewrite !bind_Ok.
    rewrite Times_same, bind_Ok by (exact (shaped_same_params _ _ _ _ _ Hs2 Sc1)).
    apply Plus_same. exact (shaped_same_params _ _ _ _ _ Hm2 He2). }
  split; [done|split; [done|split; [|split]]].
  - apply (Fusion_loop_result _ [_] lead [follower]).
    + reflexivity.
    + by repeat constructor.
    + repeat constructor. subst lead. rewrite GetParams_SwitchFormat.
      exact (shaped_same_params _ _ _ _ _ Hf Hl).
  - subst lead. rewrite GetFormat_SwitchFormat. destruct Hl as [_ ->]. done.
  - by destruct Hf.
Qed.

End FusionAndShares.

End MoreProperties.

(** * The further properties at concrete inputs *)

#[global] Instance Small_ring_laws : @RingLaws Small.lattice.
Proof.
  split.
  - by intros [p f v].
  - intros [p f v] [p' f' v'] [p'' f'' v''] [Hp Hf] _. simpl in *. subst.
    unfold add, mul, Small.lattice, Small.lift2, Small.mk. simpl.
    f_equal. lia.
  - intros [p f v] [p' f' v'] [p'' f'' v''] _ _.
    unfold add, mul, Small.lattice, Small.lift2, Small.mk. simpl.
    f_equal. lia.
  - intros n [p f v] [p' f' v'] _.
    unfold add, smul, Small.lattice, Small.lift2, Small.mk. simpl.
    f_equal. lia.
Qed.

Lemma MultiAddEvalKeys_assoc_witness :
  (ek12 ← MultiAddEvalKeys (Small.evalkey [1; 2] [3; 4])
            (Small.evalkey [1; 2] [10; 20]);
   MultiAddEvalKeys ek12 (Small.evalkey [5; 6] [100; 200]))
  = Ok (Small.evalkey [1; 2] [113; 224])
  ∧ (ek23 ← MultiAddEvalKeys (Small.evalkey [1; 2] [10; 20])
              (Small.evalkey [5; 6] [100; 200]);
     MultiAddEvalKeys (Small.evalkey [1; 2] [3; 4]) ek23)
    = Ok (Small.evalkey [1; 2] [113; 224]).
Proof.
  assert (Hl : (ek12 ← MultiAddEvalKeys (Small.evalkey [1; 2] [3; 4])
                         (Small.evalkey [1; 2] [10; 20]);
                MultiAddEvalKeys ek12 (Small.evalkey [5; 6] [100; 200]))
               = Ok (Small.evalkey [1; 2] [113; 224])) by reflexivity.
  split; [exact Hl|].
  apply (MultiAddEvalKeys_assoc (Small.evalkey [1; 2] [3; 4])
           (Small.evalkey [1; 2] [10; 20]) (Small.evalkey [5; 6] [100; 200])
           (Small.evalkey [1; 2] [113; 224]) EVALUATION).
  - reflexivity.
  - repeat constructor.
  - exact Hl.
Defined.

Lemma MultiAddPubKeys_assoc_witness :
  (p12 ← MultiAddPubKeys (Small.pubkey 10 20) (Small.pubkey 30 21);
   MultiAddPubKeys p12 (Small.pubkey 5 22))
  = (p23 ← MultiAddPubKeys (Small.pubkey 30 21) (Small.pubkey 5 22);
     MultiAddPubKeys (Small.pubkey 10 20) p23).
Proof.
  apply (MultiAddPubKeys_assoc (Small.pubkey 10 20) (Small.pubkey 30 21)
           (Small.pubkey 5 22)
           (Small.mk Small.params EVALUATION 10)
           (Small.mk Small.params EVALUATION 20)
           (Small.mk Small.params EVALUATION 30)
           (Small.mk Small.params EVALUATION 21)
           (Small.mk Small.params EVALUATION 5)
           [] [] [Small.mk Small.params EVALUATION 22]);
    reflexivity.
Defined.

Lemma MultiAddEvalMultKeys_comm_witness :
  (r ← MultiAddEvalMultKeys (Small.evalkey [1; 2] [3; 4])
         (Small.evalkey [5; 6] [10; 20]);
   Ok (GetAVector r, GetBVector r))
  = (r ← MultiAddEvalMultKeys (Small.evalkey [5; 6] [10; 20])
           (Small.evalkey [1; 2] [3; 4]);
     Ok (GetAVector r, GetBVector r)).
Proof.
  apply (MultiAddEvalMultKeys_comm (Small.evalkey [1; 2] [3; 4])
           (Small.evalkey [5; 6] [10; 20])).
  - reflexivity.
  - intros [|[|i]] x1 x2 H1 H2; try discriminate H1;
      injection H1 as <-; injection H2 as <-; reflexivity.
  - intros [|[|i]] y1 y2 H1 H2; try discriminate H1;
      injection H1 as <-; injection H2 as <-; reflexivity.
Defined.

Lemma MultiMultEvalKey_Ok_shape_witness :
  MultiMultEvalKey (Small.noisy_share 3) (Small.noisy_evalkey [1; 2] [3; 4; 9]) 5
  = Ok (Small.noisy_evalkey [-1; 12] [1; 14], 9)
  ∧ (2 ≤ 3)%nat
  ∧ 9 = (noise_pairs 4 Small.params 2 5).2.
Proof.
  assert (Hrun : MultiMultEvalKey (Small.noisy_share 3)
                   (Small.noisy_evalkey [1; 2] [3; 4; 9]) 5
                 = Ok (Small.noisy_evalkey [-1; 12] [1; 14], 9))
    by reflexivity.
  destruct (MultiMultEvalKey_Ok_shape _ _ _ _ _ Hrun)
    as (_ & _ & _ & Hlen & Hrng).
  split; [exact Hrun|split; [exact Hlen|exact Hrng]].
Defined.

Lemma MultiMultEvalKey_closed_form_witness :
  MultiMultEvalKey (Small.noisy_share 3) (Small.noisy_evalkey [1; 2] [3; 4; 9]) 5
  = Ok (Small.noisy_evalkey [-1; 12] [1; 14], 9).
Proof.
  refine (eq_trans
            (MultiMultEvalKey_closed_form (Small.noisy_share 3)
               (Small.noisy_evalkey [1; 2] [3; 4; 9]) 5 _ _ _) _).
  - reflexivity.
  - repeat constructor.
  - simpl. lia.
  - reflexivity.
Defined.

Lemma rerandomised_shares_add_witness :
  ∃ k1 k2 sum,
    MultiMultEvalKey (Small.noisy_share 3)
      (Small.noisy_evalkey [1; 2] [3; 4; 9]) 5 = Ok (k1, 9)
    ∧ MultiMultEvalKey (Small.noisy_share 4)
        (Small.noisy_evalkey [1; 2] [3; 4; 9]) 9 = Ok (k2, 13)
    ∧ MultiAddEvalMultKeys k1 k2 = Ok sum
    ∧ GetAVector sum !! 0%nat = Some (Small.mk Small.params EVALUATION 1)
    ∧ GetBVector sum !! 1%nat = Some (Small.mk Small.params EVALUATION 34).
Proof.
  destruct (rerandomised_shares_add (Small.noisy_share 3) (Small.noisy_share 4)
              (Small.noisy_evalkey [1; 2] [3; 4; 9]) 5)
    as (k1 & k2 & sum & H1 & H2 & Hsum & _ & _ & Hent).
  - repeat constructor.
  - simpl. lia.
  - exists k1, k2, sum.
    split; [exact H1|split; [exact H2|split; [exact Hsum|]]].
    split.
    + exact (proj1 (Hent 0%nat _ _ _ _ eq_refl eq_refl eq_refl eq_refl)).
    + exact (proj2 (Hent 1%nat _ _ _ _ eq_refl eq_refl eq_refl eq_refl)).
Defined.

Lemma MultiEvalAutomorphismKeyGen_Ok_inv_witness :
  ∃ res r',
    MultiEvalAutomorphismKeyGen (Omp := Small.one_thread) (Small.share 3)
      (Small.prior Small.seven_indices) [3; 5; 7; 9; 3] 0 = Ok (res, r')
    ∧ dom res = list_to_set [3; 5; 7; 9; 3]
    ∧ dom res ⊆ dom (Small.prior Small.seven_indices)
    ∧ (size res ≤ 5)%nat.
Proof.
  destruct (MultiEvalAutomorphismKeyGen (Omp := Small.one_thread)
              (Small.share 3) (Small.prior Small.seven_indices)
              [3; 5; 7; 9; 3] 0)
    as [[res r']|e|u] eqn:Hrun;
    [|vm_compute in Hrun; discriminate Hrun
     |vm_compute in Hrun; discriminate Hrun].
  exists res, r'. split; [reflexivity|].
  destruct (MultiEvalAutomorphismKeyGen_Ok_inv (Omp := Small.one_thread)
              _ _ _ _ _ _ Hrun)
    as (_ & _ & _ & Hdom & Hsub & Hsize).
  split; [exact Hdom|split; [exact Hsub|exact Hsize]].
Defined.

Lemma MultiEvalAtIndexKeyGen_Ok_inv_witness :
  ∃ res r',
    MultiEvalAtIndexKeyGen (Omp := Small.one_thread) (Small.ckks_share 3)
      (Small.prior [1; 5; 9; 13]) [1; 2; 3; 4] 0
    = Ok (res, r')
    ∧ (∀ k, k ∈ dom res →
         ∃ i v, i ∈ [1; 2; 3; 4]
                ∧ FindAutomorphismIndex2nComplex i 16 = Ok v ∧ k = usint v)
    ∧ dom res ⊆ dom (Small.prior [1; 5; 9; 13]).
Proof.
  destruct (MultiEvalAtIndexKeyGen (Omp := Small.one_thread)
              (Small.ckks_share 3) (Small.prior [1; 5; 9; 13]) [1; 2; 3; 4] 0)
    as [[res r']|e|u] eqn:Hrun;
    [|vm_compute in Hrun; discriminate Hrun
     |vm_compute in Hrun; discriminate Hrun].
  exists res, r'. split; [reflexivity|].
  destruct (MultiEvalAtIndexKeyGen_Ok_inv (Omp := Small.one_thread)
              _ _ _ _ _ _ Hrun)
    as (_ & _ & _ & Hkeys & Hsub).
  split; [exact Hkeys|exact Hsub].
Defined.

Lemma MultiEvalAtIndexKeyGen_bounds_witness :
  MultiEvalAtIndexKeyGen (Small.ckks_share 3) (Small.prior [5; 9])
    [1; 2; 3; 4; 5; 6; 7; 8] 0 = Throw size_exceeds
  ∧ MultiEvalAtIndexKeyGen (Small.ckks_share 3) (Small.prior [5; 9]) [] 0
    = Ok (∅, 0).
Proof.
  split.
  - destruct (MultiEvalAtIndexKeyGen_bounds (Small.ckks_share 3)
                (Small.prior [5; 9]) [1; 2; 3; 4; 5; 6; 7; 8] 0) as [Hfail _].
    + simpl. lia.
    + repeat constructor; eexists; reflexivity.
    + apply Hfail. simpl. lia.
  - destruct (MultiEvalAtIndexKeyGen_bounds (Small.ckks_share 3)
                (Small.prior [5; 9]) [] 0) as [_ Hempty].
    + simpl. lia.
    + constructor.
    + by apply Hempty.
Defined.

Lemma MultiEvalSumKeyGen_unguarded_witness :
  MultiEvalSumKeyGen (Small.sized_share 0 8) (Small.prior [5; 9]) 0
  = Undefined float_to_integer_out_of_range
  ∧ MultiEvalSumKeyGen (Small.sized_share 4 0) (Small.prior [5; 9]) 0
    = Undefined division_by_zero.
Proof.
  split.
  - apply (proj1 (MultiEvalSumKeyGen_unguarded (Small.sized_share 0 8)
                    (Small.prior [5; 9]) 0)).
    simpl. lia.
  - apply (proj2 (MultiEvalSumKeyGen_unguarded (Small.sized_share 4 0)
                    (Small.prior [5; 9]) 0)).
    + simpl. lia.
    + reflexivity.
Defined.

Lemma MultiEvalSumKeyGen_indices_odd_witness :
  sum_indices 16 3 5 = Ok [5; 9; 1]
  ∧ Forall (λ k, Z.odd k = true ∧ 0 < k) [5; 9; 1].
Proof.
  split; [reflexivity|].
  apply (MultiEvalSumKeyGen_indices_odd 16 3 [5; 9; 1]); reflexivity.
Defined.


Lemma MultipartyDecryptFusion_Ok_iff_witness :
  ∃ b0 firsts,
    Forall2 (λ ct x, first_element ct = Some x)
      [Small.partial EVALUATION 1; Small.partial EVALUATION 2;
       Small.partial EVALUATION 4] (b0 :: firsts)
    ∧ Forall (λ x, GetParams x = GetParams b0) firsts.
Proof.
  destruct (proj1 (MultipartyDecryptFusion_Ok_iff
                     [Small.partial EVALUATION 1; Small.partial EVALUATION 2;
                      Small.partial EVALUATION 4]
                     ([7], {| messageLength := 1 |})) eq_refl)
    as (b0 & firsts & H2 & Hall & _).
  by exists b0, firsts.
Defined.

Lemma MultipartyDecryptFusion_Permutation_witness :
  MultipartyDecryptFusion
    [Small.partial EVALUATION 1; Small.partial EVALUATION 2;
     Small.partial EVALUATION 4]
  = MultipartyDecryptFusion
      [Small.partial EVALUATION 4; Small.partial EVALUATION 1;
       Small.partial EVALUATION 2].
Proof.
  apply (MultipartyDecryptFusion_Permutation (L := Small.lattice) Small.params
           EVALUATION).
  - etransitivity; [|apply Permutation_swap]. apply Permutation_skip.
    apply Permutation_swap.
  - repeat constructor; eexists; (split; [reflexivity|by split]).
Defined.

Lemma AggregateKeyGen_outcome_witness :
  MultipartyKeyGen_shares Small.context [] false 11
  = Ok ({| publicKey := Small.pubkey 0 32; secretKey := Small.share 0 |}, 13)
  ∧ MultipartyKeyGen_shares Small.context [Small.foreign_share 4] false 11
    = Throw ParameterMismatch.
Proof.
  split.
  - refine (eq_trans
              (proj1 (AggregateKeyGen_outcome Small.context [] false 11) _) _).
    + constructor.
    + reflexivity.
  - apply (proj1 (proj2 (AggregateKeyGen_outcome Small.context
                           [Small.foreign_share 4] false 11))).
    intros Hall. apply Forall_cons in Hall as [Hp _]. discriminate Hp.
Defined.

Lemma AggregateKeyGen_Permutation_witness :
  MultipartyKeyGen_shares Small.context
    [Small.share 3; Small.share 4; Small.share 5] false 11
  = MultipartyKeyGen_shares Small.context
      [Small.share 4; Small.share 3; Small.share 5] true 11.
Proof.
  apply AggregateKeyGen_Permutation.
  - apply Permutation_swap.
  - repeat constructor.
Defined.

Lemma ExtendKeyGen_failures_witness :
  MultipartyKeyGen_pubkey Small.context
    {| pk_context := Small.context;
       GetPublicElements := [Small.mk Small.params EVALUATION 10] |}
    false true 5
  = Undefined vector_out_of_range
  ∧ MultipartyKeyGen_pubkey Small.context
      {| pk_context := Small.context;
         GetPublicElements := [Small.mk Small.other_params EVALUATION 10;
                               Small.mk Small.params EVALUATION 20] |}
      false false 5
    = Throw ParameterMismatch.
Proof.
  split.
  - apply (proj1 (ExtendKeyGen_failures Small.context _ false true 5)).
    reflexivity.
  - apply (proj1 (proj2 (proj2 (ExtendKeyGen_failures Small.context _ false
                                  false 5)))
             (Small.mk Small.params EVALUATION 20)
             (Small.mk Small.other_params EVALUATION 10));
      try reflexivity.
    discriminate.
Defined.

Lemma partial_decryption_failures_witness :
  MultipartyDecryptLead
    {| ct_context := Small.context;
       GetElements := [Small.mk Small.params EVALUATION 10] |}
    (Small.share 3) 5
  = Undefined vector_out_of_range
  ∧ MultipartyDecryptMain
      {| ct_context := Small.context;
         GetElements := [Small.mk Small.params EVALUATION 10] |}
      (Small.share 3) 5
    = Undefined vector_out_of_range.
Proof.
  apply (proj1 (partial_decryption_failures _ (Small.share 3) 5)).
  reflexivity.
Defined.

Lemma lead_follower_fusion_witness :
  MultipartyDecryptLead (Small.ciphertext 10 20) (Small.share 3) 5
  = Ok (Small.partial COEFFICIENT (-1048468), 6)
  ∧ MultipartyDecryptMain (Small.ciphertext 10 20) (Small.share 4) 6
    = Ok (Small.partial EVALUATION (-1048451), 7)
  ∧ MultipartyDecryptFusion
      [Small.partial COEFFICIENT (-1048468);
       Small.partial EVALUATION (-1048451)]
    = Ok ([-2096919], {| messageLength := 1 |}).
Proof.
  destruct (lead_follower_fusion (Small.ciphertext 10 20) (Small.share 3)
              (Small.share 4) (Small.mk Small.params EVALUATION 10)
              (Small.mk Small.params EVALUATION 20) [] 5)
    as (Hlead & Hmain & Hfuse & _).
  - reflexivity.
  - reflexivity.
  - repeat constructor.
  - split; [exact Hlead|split; [exact Hmain|exact Hfuse]].
Defined.
